(** * Two Nil data extractor: a shallow embedding and its verified properties

    The development follows the Python sources
    [scot94_extract.py], [extract_all_names.py] and
    [scot94_extract_with_attrs_and_solver.py].

    Conventions of the embedding:
    - [bytes] is [list byte]; a byte offset that the scanners produce
      themselves (it starts at 0 and only grows) is a [nat];
    - [str] text is [string]; every text the scripts handle comes from
      [bytes.decode("cp437")], a total one-to-one map on the 256 byte values
      that is the identity on ASCII, so a character is represented by its
      cp437 code and [errors="ignore"] never drops anything;
    - Python [int] is [Z] wherever a value may be negative;
    - Python [float] is an IEEE 754 binary64 number, [spec_float] of the
      Standard Library at 53 bits of precision. *)

From Stdlib Require Import Bool List Arith ZArith NArith Lia.
From Stdlib Require Import Permutation Sorted.
From Stdlib Require Import Strings.Ascii Strings.String Strings.Byte.
From Stdlib Require Import DecimalString SpecFloat.
Import ListNotations.

Local Open Scope string_scope.
Local Open Scope list_scope.
Local Open Scope nat_scope.

(** ** Python text primitives on cp437 characters *)

Module Py.

Definition code (c : ascii) : N := N_of_ascii c.

Definition between (lo hi : N) (c : ascii) : bool :=
  ((lo <=? code c) && (code c <=? hi))%N.

Definition one_of (l : list N) (c : ascii) : bool :=
  existsb (N.eqb (code c)) l.

(** [ch.isupper()] for a single cp437 character: A-Z and the upper-case
    letters of the upper half (C-cedilla, A-umlaut, A-ring, E-acute, AE,
    O-umlaut, U-umlaut, N-tilde, Gamma, Sigma, Phi, Theta, Omega). *)
Definition isupper (c : ascii) : bool :=
  between 65 90 c
  || one_of [128; 142; 143; 144; 146; 153; 154; 165; 226; 228; 232; 233; 234]%N c.

(** [ch.islower()]: a-z and the lower-case letters of the upper half
    (accented vowels, ae, florin, the ordinal indicators, the lower-case
    Greek letters, micro, sharp s and superscript n). *)
Definition islower (c : ascii) : bool :=
  between 97 122 c
  || between 129 141 c || one_of [145]%N c || between 147 152 c
  || one_of [159]%N c || between 160 164 c || between 166 167 c
  || one_of [224; 225; 227; 229; 230; 231; 235; 237; 238; 252]%N c.

(** [ch.isalpha()]: every cp437 letter is cased. *)
Definition isalpha (c : ascii) : bool :=
  between 65 90 c || between 97 122 c
  || between 128 154 c || one_of [159]%N c || between 160 167 c
  || between 224 235 c || between 237 238 c || one_of [252]%N c.

(** The characters [str.strip()] removes: TAB..CR, FS..US, space and the
    no-break space (cp437 byte 255). *)
Definition isspace (c : ascii) : bool :=
  between 9 13 c || between 28 32 c || one_of [255]%N c.

Fixpoint str_all (p : ascii -> bool) (s : string) : bool :=
  match s with
  | EmptyString => true
  | String c s' => p c && str_all p s'
  end.

Fixpoint str_any (p : ascii -> bool) (s : string) : bool :=
  match s with
  | EmptyString => false
  | String c s' => p c || str_any p s'
  end.

(** [bool(s)]: a string is truthy when it is not empty. *)
Definition truthy (s : string) : bool :=
  match s with
  | EmptyString => false
  | String _ _ => true
  end.

(** [s + ch] *)
Definition add_char (s : string) (c : ascii) : string :=
  (s ++ String c "")%string.

(** [s[-1]] of a non-empty string. *)
Fixpoint last_char (s : string) : option ascii :=
  match s with
  | EmptyString => None
  | String c EmptyString => Some c
  | String _ s' => last_char s'
  end.

(** [s.endswith(suffix)] *)
Definition endswith (s suffix : string) : bool :=
  Nat.leb (String.length suffix) (String.length s)
  && String.eqb (substring (String.length s - String.length suffix)
                           (String.length suffix) s) suffix.

Fixpoint lstrip (s : string) : string :=
  match s with
  | EmptyString => EmptyString
  | String c s' => if isspace c then lstrip s' else s
  end.

Fixpoint rstrip (s : string) : string :=
  match s with
  | EmptyString => EmptyString
  | String c s' =>
      match rstrip s' with
      | EmptyString => if isspace c then EmptyString else String c EmptyString
      | r => String c r
      end
  end.

(** [s.strip()] *)
Definition strip (s : string) : string := rstrip (lstrip s).

(** The number of characters [lstrip] removes, and the number [rstrip]
    removes: the whitespace at the two ends of the text. *)
Fixpoint leading_ws (s : string) : nat :=
  match s with
  | EmptyString => 0
  | String c s' => if isspace c then S (leading_ws s') else 0
  end.

Fixpoint trailing_ws (s : string) : nat :=
  match s with
  | EmptyString => 0
  | String c s' =>
      let t := trailing_ws s' in
      if (t =? String.length s') && isspace c then S t else t
  end.

(** [raw.decode("cp437", errors="ignore")] *)
Definition decode_cp437 (raw : list byte) : string :=
  string_of_list_ascii (map ascii_of_byte raw).

(** [data[a:b]] for offsets [0 <= a]. *)
Definition slice {A : Type} (l : list A) (a b : nat) : list A :=
  firstn (b - a) (skipn a l).

End Py.

(** ** Token Segmenter *)

Module Segmenter.
Import Py.

(** *** [tokenize_mixed] of scot94_extract.py *)

Record state := mk_state { tokens : list string; cur : string }.

Definition flush (st : state) : state :=
  if truthy (cur st)
  then mk_state (tokens st ++ [cur st]) ""
  else st.

Definition is_name_char (ch : ascii) : bool :=
  isalpha ch || Ascii.eqb ch "'" || Ascii.eqb ch "-".

Definition cur_ends_lower (c : string) : bool :=
  match last_char c with
  | Some p => islower p
  | None => false
  end.

(** One iteration of [for ch in s]. *)
Definition step (st : state) (ch : ascii) : state :=
  if Ascii.eqb ch " " then flush st
  else if negb (is_name_char ch) then flush st
  else if truthy (cur st) && isupper ch && cur_ends_lower (cur st)
       then mk_state (tokens (flush st)) (String ch "")
       else mk_state (tokens st) (add_char (cur st) ch).

Fixpoint scan (s : string) (st : state) : state :=
  match s with
  | EmptyString => st
  | String ch s' => scan s' (step st ch)
  end.

(** The state before any character is read. *)
Definition start : state := mk_state [] "".

(** The boundary pass: the loop followed by the final [flush()]. *)
Definition boundary_pass (s : string) : list string :=
  tokens (flush (scan s start)).

(** The two merge loops: [while i < len(tokens)] with
    [tokens[i] == prefix and i + 1 < len(tokens)]. *)
Fixpoint merge_prefix (prefix : string) (toks : list string) : list string :=
  match toks with
  | [] => []
  | t :: rest =>
      if String.eqb t prefix then
        match rest with
        | nxt :: rest' => (prefix ++ nxt)%string :: merge_prefix prefix rest'
        | [] => [t]
        end
      else t :: merge_prefix prefix rest
  end.

(** What every token of the segmenter satisfies: it is not empty and holds
    letters, apostrophes and hyphens only. *)
Definition well_formed (t : string) : Prop :=
  t <> "" /\ str_all is_name_char t = true.

(** The loop invariant: closed tokens are well formed and the token being
    accumulated holds name characters only. *)
Definition shape_inv (st : state) : Prop :=
  Forall well_formed (tokens st) /\ str_all is_name_char (cur st) = true.

Definition tokenize_mixed (s : string) : list string :=
  let tokens := boundary_pass s in
  let merged := merge_prefix "Mc" tokens in
  let merged2 := merge_prefix "Mac" merged in
  merged2.

(** *** [split_concatenated_names] of extract_all_names.py *)

Record split_state := mk_split { parts : list string; scur : string }.

(** One iteration of [for i in range(1, len(blob))] with [ch = blob[i]]
    and [prev = blob[i - 1]]. *)
Definition split_step (st : split_state) (prev ch : ascii) : split_state :=
  if isupper ch && islower prev then
    if endswith (scur st) "Mac" || endswith (scur st) "Mc"
    then mk_split (parts st) (add_char (scur st) ch)
    else mk_split (parts st ++ [scur st]) (String ch "")
  else mk_split (parts st) (add_char (scur st) ch).

Fixpoint split_scan (s : string) (prev : ascii) (st : split_state) : split_state :=
  match s with
  | EmptyString => st
  | String ch s' => split_scan s' ch (split_step st prev ch)
  end.

(** The state when the loop over [blob[1:]] ends; [cur = blob[0]] at the
    start.  The function returns early on an empty blob. *)
Definition split_run (blob : string) : split_state :=
  match blob with
  | EmptyString => mk_split [] ""
  | String c0 rest => split_scan rest c0 (mk_split [] (String c0 ""))
  end.

(** The boundary pass including the final [parts.append(cur)]. *)
Definition split_parts (blob : string) : list string :=
  match blob with
  | EmptyString => []
  | String _ _ =>
      let st := split_run blob in
      parts st ++ [scur st]
  end.

(** [parts[i + 1][:1].isupper()] *)
Definition starts_upper (t : string) : bool :=
  match t with
  | EmptyString => false
  | String c _ => isupper c
  end.

Fixpoint merge_mc (ps : list string) : list string :=
  match ps with
  | [] => []
  | t :: rest =>
      if String.eqb t "Mc" then
        match rest with
        | nxt :: rest' =>
            if starts_upper nxt
            then ("Mc" ++ nxt)%string :: merge_mc rest'
            else t :: merge_mc rest
        | [] => [t]
        end
      else t :: merge_mc rest
  end.

Definition split_concatenated_names (blob : string) : list string :=
  merge_mc (split_parts blob).

End Segmenter.

(** ** Slot Table Scanner and Unaligned Pascal Scanner (scot94_extract.py) *)

Module Scanner.
Import Py.

Definition ALLOWED_CHARS : string :=
  "ABCDEFGHIJKLMNOPQRSTUVWXYZabcdefghijklmnopqrstuvwxyz '-.".

(** [ch in ALLOWED_CHARS] *)
Definition allowed (ch : ascii) : bool := str_any (Ascii.eqb ch) ALLOWED_CHARS.

Definition byte_val (b : byte) : nat := N.to_nat (Byte.to_N b).

Definition is_printable_name_byte (b : byte) : bool :=
  let c := byte_val b in
  ((65 <=? c) && (c <=? 90)) || ((97 <=? c) && (c <=? 122))
  || existsb (Nat.eqb c) [32; 39; 45; 46].

Definition is_printable_name_bytes (b : list byte) : bool :=
  forallb is_printable_name_byte b.

(** [read_slot16(data, off)]; [None] is Python's [None].  The guard on
    [off + 16] makes [blk] sixteen bytes long, so [blk[0]] always exists. *)
Definition read_slot16 (data : list byte) (off : nat) : option string :=
  if List.length data <? off + 16 then None
  else
    let blk := slice data off (off + 16) in
    match blk with
    | [] => None
    | b0 :: _ =>
        let L := byte_val b0 in
        if negb ((1 <=? L) && (L <=? 15)) then None
        else
          let raw := slice blk 1 (1 + L) in
          let s := strip (decode_cp437 raw) in
          if negb (truthy s) || negb (str_any isalpha s) then None
          else if str_any (fun ch => negb (allowed ch)) s then None
          else Some s
    end.

Definition slot := (nat * string)%type.




(** What a successful decode at [off] tells about the record: the length
    byte [L], the [L] text bytes and the text returned. *)
Definition slot_decode_spec (data : list byte) (off : nat) (s : string) : Prop :=
  exists b0,
    nth_error data off = Some b0 /\
    let L := byte_val b0 in
    let raw := slice data (off + 1) (off + 1 + L) in
    1 <= L <= 15 /\
    List.length raw = L /\
    s = strip (decode_cp437 raw) /\
    String.length s + leading_ws (decode_cp437 raw)
      + trailing_ws (decode_cp437 raw) = L.


(** The inner [while True] loop: it returns the slots read and the offset
    at which [read_slot16] gave [None]. *)
Fixpoint read_run (fuel : nat) (data : list byte) (off : nat) (slots : list slot)
  : list slot * nat :=
  match fuel with
  | O => (slots, off)
  | S fuel' =>
      match read_slot16 data off with
      | None => (slots, off)
      | Some s => read_run fuel' data (off + 16) (slots ++ [(off, s)])
      end
  end.

(** The outer [while i < len(data) - 16] loop. *)
Fixpoint find_tables_from (fuel : nat) (data : list byte) (i : nat)
    (tables : list (list slot)) : list (list slot) :=
  match fuel with
  | O => tables
  | S fuel' =>
      if (Z.of_nat i <? Z.of_nat (List.length data) - 16)%Z then
        let '(slots, off) := read_run (S (List.length data)) data i [] in
        if 8 <=? List.length slots
        then find_tables_from fuel' data off (tables ++ [slots])
        else find_tables_from fuel' data (i + 1) tables
      else tables
  end.

Definition find_slot16_tables (data : list byte) : list (list slot) :=
  find_tables_from (List.length data) data 0 [].

(** One iteration of the loop of [extract_pascal_strings] at cursor [i]:
    the next cursor and the tokens appended to [out] (none or one). *)
Definition pascal_step (data : list byte) (min_len max_len : Z) (i : nat)
  : nat * list slot :=
  match nth_error data i with
  | None => (i + 1, [])
  | Some b =>
      let L := byte_val b in
      if ((min_len <=? Z.of_nat L) && (Z.of_nat L <=? max_len))%Z
         && (i + 1 + L <=? List.length data)
      then
        let sbytes := slice data (i + 1) (i + 1 + L) in
        if is_printable_name_bytes sbytes then
          let s := strip (decode_cp437 sbytes) in
          (i + 1 + L, if str_any isalpha s then [(i, s)] else [])
        else (i + 1, [])
      else (i + 1, [])
  end.

Fixpoint pascal_from (fuel : nat) (data : list byte) (min_len max_len : Z)
    (i : nat) (out : list slot) : list slot :=
  match fuel with
  | O => out
  | S fuel' =>
      if (Z.of_nat i <? Z.of_nat (List.length data) - 2)%Z then
        let '(i', emitted) := pascal_step data min_len max_len i in
        pascal_from fuel' data min_len max_len i' (out ++ emitted)
      else out
  end.

(** [extract_pascal_strings(data, min_len=3, max_len=24)] *)
Definition extract_pascal_strings (data : list byte) (min_len max_len : Z)
  : list slot :=
  pascal_from (List.length data) data min_len max_len 0 [].

(** The candidate at cursor [i] with length byte [L] passes the checks that
    make the scanner consume it: [L] in range, the text inside the buffer,
    and every text byte a printable name byte. *)
Definition pascal_candidate (data : list byte) (min_len max_len : Z)
    (i L : nat) : bool :=
  ((min_len <=? Z.of_nat L) && (Z.of_nat L <=? max_len))%Z
  && (i + 1 + L <=? List.length data)
  && is_printable_name_bytes (slice data (i + 1) (i + 1 + L)).

(** The text a candidate decodes to. *)
Definition pascal_text (data : list byte) (i L : nat) : string :=
  strip (decode_cp437 (slice data (i + 1) (i + 1 + L))).

End Scanner.

(** ** Block Mapper (the squad slicing of [main] in scot94_extract.py) *)

Module Blocks.
Import Py.
Local Open Scope Z_scope.

(** [len(l)] *)
Definition len {A : Type} (l : list A) : Z := Z.of_nat (List.length l).

(** [l[a:b]] with Python's treatment of negative and out-of-range bounds. *)
Definition py_slice {A : Type} (l : list A) (a b : Z) : list A :=
  let n := len l in
  let clamp x := if x <? 0 then Z.max 0 (x + n) else Z.min x n in
  firstn (Z.to_nat (clamp b - clamp a)) (skipn (Z.to_nat (clamp a)) l).

(** [range(start, stop, step)]; [None] is the [ValueError] of a zero step. *)
Definition py_range (start stop step : Z) : option (list Z) :=
  if step =? 0 then None
  else
    let n := if 0 <? step
             then (if start <? stop then (stop - start - 1) / step + 1 else 0)
             else (if stop <? start then (start - stop - 1) / (- step) + 1 else 0) in
    Some (map (fun k => start + Z.of_nat k * step) (seq 0 (Z.to_nat n))).

(** The constants of [main]. *)
Definition start_team_index : Z := 7.
Definition chunkA : Z := 21.
Definition offsetA : Z := -2.
Definition chunkB : Z := 16.
Definition offsetB : Z := 10.

(** The closure [squadA], with the variables it captures as arguments. *)
Definition squadA (tokens : list string) (start_team_index chunkA offsetA : Z)
    (team_index : Z) : option (list string) :=
  let t := team_index - start_team_index in
  let start := offsetA + t * chunkA in
  let end_ := start + chunkA in
  if (start <? 0) || (end_ >? len tokens) then None
  else Some (py_slice tokens start end_).

(** The loop that fills [rowsA], over the team indices [0 .. team_count-1]:
    an index below the start index is skipped, and so is a squad that is
    [None] or empty. *)
Definition rowsA (tokens : list string) (start_team_index chunkA offsetA : Z)
    (team_count : nat) : list (Z * list string) :=
  flat_map
    (fun k =>
       let idx := Z.of_nat k in
       if idx <? start_team_index then []
       else
         match squadA tokens start_team_index chunkA offsetA idx with
         | None => []
         | Some [] => []
         | Some sq => [(idx, sq)]
         end)
    (seq 0 team_count).

Definition ascii_letter (c : ascii) : bool :=
  between 65 90 c || between 97 122 c.

Definition name_token_char (c : ascii) : bool :=
  ascii_letter c || Ascii.eqb c "'" || Ascii.eqb c "-".

(** [NAME_TOKEN_RE.fullmatch(t)] for [^[A-Za-z][A-Za-z'\-]{1,23}$] *)
Definition NAME_TOKEN_RE (t : string) : bool :=
  match t with
  | EmptyString => false
  | String c rest =>
      ascii_letter c
      && (1 <=? String.length rest)%nat && (String.length rest <=? 23)%nat
      && str_all name_token_char rest
  end.

Definition block := (Z * Z * list string)%type.

(** The body of [for bstart in range(offsetB, len(tokens), chunkB)]. *)
Fixpoint blocks_loop (tokens : list string) (chunkB : Z) (starts : list Z)
    (block_id : Z) (blocksB : list block) : list block :=
  match starts with
  | [] => blocksB
  | bstart :: rest =>
      let bend := bstart + chunkB in
      if bend >? len tokens then blocksB
      else
        let blk := py_slice tokens bstart bend in
        let ok := (12 <=? List.length (filter NAME_TOKEN_RE blk))%nat in
        if negb ok then blocks_loop tokens chunkB rest block_id blocksB
        else blocks_loop tokens chunkB rest (block_id + 1)
               (blocksB ++ [(block_id, bstart, blk)])
  end.

Definition blocksB (tokens : list string) (offsetB chunkB : Z)
  : option (list block) :=
  match py_range offsetB (len tokens) chunkB with
  | None => None
  | Some starts => Some (blocks_loop tokens chunkB starts 0 [])
  end.

(** What the Block Mapper promises of a window that starts at token
    [window_start]. *)
Definition window_ok (tokens : list string) (block_size window_start : Z)
    (w : list string) : Prop :=
  len w = block_size /\ 0 <= window_start
  /\ window_start + block_size <= len tokens
  /\ w = py_slice tokens window_start (window_start + block_size).

(** A block of the sequential mode: a window whose start lies on the grid
    [bias + j * block_size]. *)
Definition block_ok (tokens : list string) (bias block_size : Z) (b : block)
  : Prop :=
  let '(_, bstart, blk) := b in
  window_ok tokens block_size bstart blk
  /\ exists j, 0 <= j /\ bstart = bias + j * block_size.

(** The invariant of the loop that fills [blocksB]: the next block
    number is the number of blocks found, the blocks are numbered from 0,
    they lie at increasing non-overlapping offsets, and each passed the
    content filter. *)
Definition blocks_inv (tokens : list string) (chunk : Z) (block_id : Z)
    (acc : list block) : Prop :=
  block_id = Z.of_nat (List.length acc)
  /\ map (fun b : block => fst (fst b)) acc
     = map Z.of_nat (seq 0 (List.length acc))
  /\ StronglySorted (fun b1 b2 : block => snd (fst b1) + chunk <= snd (fst b2))
                    acc
  /\ Forall (fun b : block =>
               (12 <= List.length (filter NAME_TOKEN_RE (snd b)))%nat) acc.

End Blocks.

(** ** Numeric Table Solver (scot94_extract_with_attrs_and_solver.py)

    The error is a Python [float], an IEEE 754 binary64 number.  It is
    modelled by [spec_float], the specification of floating-point
    arithmetic of the Standard Library, with 53 bits of precision:
    additions and the division round to nearest, ties to even, an [int]
    operand is converted first and the conversion raises [OverflowError]
    when the int is too large for a float. *)

Module Solver.
Import Py.
Import Blocks.
Local Open Scope Z_scope.

Definition prec : Z := 53.
Definition emax : Z := 1024.

Definition pyfloat : Type := spec_float.

(** [0.0] *)
Definition float_zero : pyfloat := S754_zero false.

(** The conversion of an [int] operand of [float + int] and [float / int];
    [None] is the [OverflowError] of an int too large for a float. *)
Definition float_of_int (i : Z) : option pyfloat :=
  match binary_normalize prec emax i 0 false with
  | S754_infinity _ => None
  | f => Some f
  end.

(** [x + y] and [x / y] on floats; neither raises for the operands met
    here (a sum that overflows is [inf], and no divisor is zero). *)
Definition float_add : pyfloat -> pyfloat -> pyfloat := SFadd prec emax.
Definition float_div : pyfloat -> pyfloat -> pyfloat := SFdiv prec emax.

(** [x < y], [x <= y] and [x == 0] on floats. *)
Definition float_lt : pyfloat -> pyfloat -> bool := SFltb.
Definition float_le : pyfloat -> pyfloat -> bool := SFleb.

(** A finite double of at least 1: a mantissa of at most 53 bits, an
    exponent in range and a magnitude (bits plus exponent) of 1 or more. *)
Definition float_big (x : pyfloat) : Prop :=
  exists m e, x = S754_finite false m e
    /\ -1074 <= e <= 971 /\ 1 <= Zdigits2 (Zpos m) + e
    /\ Zdigits2 (Zpos m) <= 53.

(** A double of at least 1, [inf] included. *)
Definition float_ge_one (x : pyfloat) : Prop :=
  x = S754_infinity false \/ float_big x.

(** A double that is [0.0], positive or [inf]: not negative, not NaN. *)
Definition float_nonneg (x : pyfloat) : bool :=
  match x with
  | S754_zero false | S754_finite false _ _ | S754_infinity false => true
  | _ => false
  end.

Record candidate := mk_candidate {
  kind : string;
  offset : Z;
  scale : Z;
  mae : pyfloat;
  cmin : Z;
  cmax : Z
}.

(** [l[i]] with Python's negative indices; [None] is [IndexError]. *)
Definition py_index {A : Type} (l : list A) (i : Z) : option A :=
  let n := len l in
  if (0 <=? i) && (i <? n) then nth_error l (Z.to_nat i)
  else if (- n <=? i) && (i <? 0) then nth_error l (Z.to_nat (i + n))
  else None.

(** The loop [for idx, val in truth.items(): err += abs(pred[idx] - val)];
    the dict is the list of its items.  [None] is the [IndexError] of
    [pred[idx]] or the [OverflowError] of adding an int that does not fit a
    float. *)
Fixpoint abs_error_sum (pred : list Z) (items : list (Z * Z)) (err : pyfloat)
  : option pyfloat :=
  match items with
  | [] => Some err
  | (idx, val) :: rest =>
      match py_index pred idx with
      | None => None
      | Some p =>
          match float_of_int (Z.abs (p - val)) with
          | None => None
          | Some d => abs_error_sum pred rest (float_add err d)
          end
      end
  end.

(** [err = 0.0], the loop, then [err / max(1, len(truth))]. *)
Definition _mean_abs_error (pred : list Z) (truth : list (Z * Z))
  : option pyfloat :=
  match abs_error_sum pred truth float_zero with
  | None => None
  | Some err =>
      match float_of_int (Z.max 1 (len truth)) with
      | None => None
      | Some d => Some (float_div err d)
      end
  end.

Definition byte_z (b : byte) : Z := Z.of_N (Byte.to_N b).

(** Little-endian unsigned 16-bit values of a byte string. *)
Fixpoint u16_le (bs : list byte) : list Z :=
  match bs with
  | lo :: hi :: rest => (byte_z lo + 256 * byte_z hi) :: u16_le rest
  | _ => []
  end.

(** [struct.unpack_from("<" + "H" * n, data, off)]; [None] is
    [struct.error].  A negative offset counts from the end of the buffer. *)
Definition unpack_from (n : Z) (data : list byte) (off : Z) : option (list Z) :=
  let size := 2 * Z.max n 0 in
  let blen := len data in
  let read o :=
    if blen - o <? size then None
    else Some (u16_le (firstn (Z.to_nat size) (skipn (Z.to_nat o) data))) in
  if off <? 0 then
    if off + size >? 0 then None
    else if off + blen <? 0 then None
    else read (off + blen)
  else read off.

(** [max(l)] and [min(l)]; [None] is the [ValueError] of an empty argument. *)
Definition py_max (l : list Z) : option Z :=
  match l with
  | [] => None
  | x :: r => Some (fold_left Z.max r x)
  end.

Definition py_min (l : list Z) : option Z :=
  match l with
  | [] => None
  | x :: r => Some (fold_left Z.min r x)
  end.

(** [f"u16_x{k}"] *)
Definition kind_of (k : Z) : string :=
  ("u16_x" ++ NilZero.string_of_int (Z.to_int k))%string.

(** The loop [for k in scales] at one offset. *)
Fixpoint for_scales (off : Z) (vals : list Z) (truth : list (Z * Z))
    (scales : list Z) (out : list candidate) : option (list candidate) :=
  match scales with
  | [] => Some out
  | k :: rest =>
      let pred := map (fun v => v * k) vals in
      match _mean_abs_error pred truth, py_min pred, py_max pred with
      | Some m, Some mn, Some mx =>
          for_scales off vals truth rest
            (out ++ [mk_candidate (kind_of k) off k m mn mx])
      | _, _, _ => None
      end
  end.

(** The loop [for off in range(search_start, end, step)]. *)
Fixpoint for_offsets (data : list byte) (n : Z) (truth : list (Z * Z))
    (scales : list Z) (offs : list Z) (out : list candidate)
  : option (list candidate) :=
  match offs with
  | [] => Some out
  | off :: rest =>
      match unpack_from n data off with
      | None => for_offsets data n truth scales rest out
      | Some vals =>
          match py_max vals with
          | None => None
          | Some mx =>
              if mx =? 0 then for_offsets data n truth scales rest out
              else
                match for_scales off vals truth scales out with
                | None => None
                | Some out' => for_offsets data n truth scales rest out'
                end
          end
      end
  end.

(** [out.sort(key=lambda r: r["mae"])]: the sort compares the keys with
    [<] and is stable, and a stable sort is determined by its keys (none
    is a NaN here); it is computed by insertion: a candidate goes before
    the first one that is not smaller. *)
Fixpoint insert_by_mae (c : candidate) (l : list candidate) : list candidate :=
  match l with
  | [] => [c]
  | d :: l' =>
      if float_lt (mae d) (mae c) then d :: insert_by_mae c l' else c :: l
  end.

Definition sort_by_mae (l : list candidate) : list candidate :=
  fold_right insert_by_mae [] l.

(** The offsets the solver scans. *)
Definition scanned_offsets (data : list byte) (n : Z) (search_start : Z)
    (search_end : option Z) (step : Z) : option (list Z) :=
  let search_end := match search_end with
                    | None => len data
                    | Some e => e
                    end in
  let byte_len := 2 * n in
  let end_ := Z.min search_end (len data - byte_len) in
  py_range search_start end_ step.

(** [solve_u16_scaled_tables]; [None] is an exception that escapes it. *)
Definition solve_u16_scaled_tables (data : list byte) (n : Z)
    (truth : list (Z * Z)) (scales : list Z) (search_start : Z)
    (search_end : option Z) (step : Z) : option (list candidate) :=
  match scanned_offsets data n search_start search_end step with
  | None => None
  | Some offs =>
      match for_offsets data n truth scales offs [] with
      | None => None
      | Some out => Some (sort_by_mae out)
      end
  end.

(** The array at [off] passes the implausibility filter [mx == 0]. *)
Definition passes_filter (data : list byte) (n : Z) (off : Z) : bool :=
  match unpack_from n data off with
  | None => false
  | Some vals =>
      match py_max vals with
      | None => false
      | Some mx => negb (mx =? 0)
      end
  end.










End Solver.

(** ** The 32-bit solver and the raw attribute dump
    (scot94_extract_with_attrs_and_solver.py) *)

Module Solver32.
Import Py Blocks Solver.
Local Open Scope Z_scope.







End Solver32.

Module Attrs.
Import Py Blocks Solver.
Local Open Scope Z_scope.

Definition TEAM_COUNT : nat := 64.
Definition ATTR_B1_OFFSET : Z := 3104.   (* 0x0C20 *)
Definition ATTR_U16_OFFSET : Z := 3168.  (* 0x0C60 *)
Definition ATTR_B2_OFFSET : Z := 3200.   (* 0x0C80 *)
Definition ATTR_B3_OFFSET : Z := 3264.   (* 0x0CC0 *)
Definition ATTR_B4_OFFSET : Z := 3296.   (* 0x0CE0 *)

Record attr_row := mk_row {
  team_index : nat;
  team_name : string;
  b1_u8 : option Z;
  u16_le_ : option Z;
  b2_u8 : option Z;
  b3_u8 : option Z;
  b4_u8 : option Z;
  b4_ascii : string
}.

(** [data[o] if o < len(data) else None], for the non-negative offsets
    the dump uses. *)
Definition byte_at (data : list byte) (o : Z) : option Z :=
  if o <? len data then option_map byte_z (nth_error data (Z.to_nat o))
  else None.

(** [struct.unpack_from("<H", data, u16_off)[0]] under the guard
    [u16_off + 2 <= len(data)]. *)
Definition u16_at (data : list byte) (u16_off : Z) : option Z :=
  if u16_off + 2 <=? len data then
    match unpack_from 1 data u16_off with
    | Some (v :: _) => Some v
    | _ => None
    end
  else None.

(** [chr(b4) if isinstance(b4, int) and 32 <= b4 <= 126 else ""] *)
Definition ascii_of_field (b4 : option Z) : string :=
  match b4 with
  | Some v =>
      if (32 <=? v) && (v <=? 126)
      then String (ascii_of_N (Z.to_N v)) ""
      else ""
  | None => ""
  end.

(** The body of the loop, for team number [idx]. *)
Definition row_of (data : list byte) (idx : nat) (name : string) : attr_row :=
  let i := Z.of_nat idx in
  let b4 := byte_at data (ATTR_B4_OFFSET + i) in
  mk_row idx name
    (byte_at data (ATTR_B1_OFFSET + i))
    (u16_at data (ATTR_U16_OFFSET + i * 2))
    (byte_at data (ATTR_B2_OFFSET + i))
    (byte_at data (ATTR_B3_OFFSET + i))
    b4
    (ascii_of_field b4).

(** [enumerate(l)] from [k] on. *)
Fixpoint enumerate_from {A : Type} (k : nat) (l : list A) : list (nat * A) :=
  match l with
  | [] => []
  | x :: l' => (k, x) :: enumerate_from (S k) l'
  end.

Definition extract_team_attributes_raw (data : list byte) (teams : list string)
  : list attr_row :=
  map (fun p => row_of data (fst p) (snd p))
      (enumerate_from 0 (firstn TEAM_COUNT teams)).

End Attrs.

(** ** Notions used to state further properties of the scanners and of
    the segmenter *)

Module Notions.
Import Py Scanner.

(** ["".join(l)] *)
Fixpoint join (l : list string) : string :=
  match l with
  | [] => ""
  | t :: l' => (t ++ join l')%string
  end.

(** The characters of [s] that satisfy [p], in order. *)
Fixpoint str_filter (p : ascii -> bool) (s : string) : string :=
  match s with
  | EmptyString => EmptyString
  | String c s' => if p c then String c (str_filter p s') else str_filter p s'
  end.

(** The text invariant shared by slot records and Pascal tokens: the text
    is not empty, holds a letter, holds allowed characters only, and has no
    whitespace at either end. *)
Definition text_invariant (s : string) : Prop :=
  s <> "" /\ str_any isalpha s = true /\ str_all allowed s = true
  /\ strip s = s.

(** [run] is a run of slots read at [off], [off + 16], ... *)
Fixpoint is_run (data : list byte) (off : nat) (run : list slot) : Prop :=
  match run with
  | [] => True
  | (o, s) :: r =>
      o = off /\ read_slot16 data off = Some s /\ is_run data (off + 16) r
  end.

Definition table_start (t : list slot) : nat :=
  match t with
  | [] => 0
  | (o, _) :: _ => o
  end.

Definition table_stop (t : list slot) : nat :=
  table_start t + 16 * List.length t.

(** A table of the Slot Table Scanner: at least eight slots, each the
    decoding of the record at its offset, at stride 16, and ended by a
    record that does not decode. *)
Definition table_ok (data : list byte) (t : list slot) : Prop :=
  8 <= List.length t
  /\ is_run data (table_start t) t
  /\ read_slot16 data (table_stop t) = None.

(** The invariant of the outer loop: the tables found so far are proper
    tables, lie before the cursor, and are separated from one another. *)
Definition tables_inv (data : list byte) (i : nat) (tables : list (list slot))
  : Prop :=
  Forall (table_ok data) tables
  /\ Forall (fun t => table_stop t <= i) tables
  /\ StronglySorted (fun t1 t2 => table_stop t1 < table_start t2) tables.

(** The offset just after the bytes a Pascal token consumed. *)
Definition pascal_end (data : list byte) (t : slot) : nat :=
  fst t + 1 + byte_val (nth (fst t) data x00).

(** A token of the Unaligned Pascal Scanner: its length byte is in range,
    its text bytes lie in the buffer and are printable name bytes, and its
    text is their decoding, stripped, with a letter in it. *)
Definition pascal_token_ok (data : list byte) (min_len max_len : Z)
    (t : slot) : Prop :=
  exists b,
    nth_error data (fst t) = Some b
    /\ pascal_candidate data min_len max_len (fst t) (byte_val b) = true
    /\ snd t = pascal_text data (fst t) (byte_val b)
    /\ str_any isalpha (snd t) = true.

(** The invariant of the boundary loop of [split_concatenated_names]: no
    closed part ends with "Mc", no part is empty, and every part but the
    first, the part in progress included, starts with an upper-case
    letter. *)
Definition split_inv (st : Segmenter.split_state) : Prop :=
  Forall (fun p => endswith p "Mc" = false) (Segmenter.parts st)
  /\ Forall (fun p => p <> "") (Segmenter.parts st)
  /\ Segmenter.scur st <> ""
  /\ Forall (fun p => Segmenter.starts_upper p = true)
            (tl (Segmenter.parts st ++ [Segmenter.scur st])).

End Notions.

(** * Team List B ([scot94_extract.py], [main], step 4) *)

Module TeamListB.
Import Py Scanner.

(** [ch.upper()] and [ch.lower()] of an ASCII character.  The texts of
    [extract_pascal_strings] are made of [ALLOWED_CHARS], all ASCII. *)
Definition ascii_upper (c : ascii) : ascii :=
  if between 97 122 c then ascii_of_N (code c - 32) else c.

Definition ascii_lower (c : ascii) : ascii :=
  if between 65 90 c then ascii_of_N (code c + 32) else c.

Fixpoint str_map (f : ascii -> ascii) (s : string) : string :=
  match s with
  | EmptyString => EmptyString
  | String c s' => String (f c) (str_map f s')
  end.

Definition upper (s : string) : string := str_map ascii_upper s.
Definition lower (s : string) : string := str_map ascii_lower s.

(** [k in s] for strings. *)
Fixpoint contains (k s : string) : bool :=
  String.prefix k s
  || match s with
     | EmptyString => false
     | String _ s' => contains k s'
     end.

(** [any(k in s.upper() for k in ("LEAGUE", "DIVISION"))] *)
Definition league_word (s : string) : bool :=
  existsb (fun k => contains k (upper s)) ["LEAGUE"; "DIVISION"]%string.

(** [cand = [(off, s) for off, s in pas if 1200 <= off <= 3000]] *)
Definition in_window (t : slot) : bool :=
  (1200 <=? fst t) && (fst t <=? 3000).

(** The loop that de-duplicates and filters the candidates. *)
Fixpoint teamB_loop (cand : list slot) (seen : list string) (teamB : list slot)
  : list slot :=
  match cand with
  | [] => teamB
  | (off, s) :: rest =>
      let key := lower s in
      if existsb (String.eqb key) seen then teamB_loop rest seen teamB
      else if String.length s <? 4 then teamB_loop rest seen teamB
      else if league_word s then teamB_loop rest seen teamB
      else teamB_loop rest (key :: seen) (teamB ++ [(off, s)])
  end.

Definition teamB (data : list byte) : list slot :=
  teamB_loop (filter in_window (extract_pascal_strings data 3 24)) [] [].

(** A candidate the loop does not reject for its own text. *)
Definition team_like (t : slot) : bool :=
  (4 <=? String.length (snd t)) && negb (league_word (snd t)).

End TeamListB.

(** * Name extraction ([extract_all_names.py]) *)

Module Names.
Import Py Segmenter Blocks Solver.

Record token := mk_token { value : string; source : string; offset : Z }.

Definition newline : ascii := "010"%char.

(** [TOKEN_RE.match(s)] for [^[A-Za-z][A-Za-z'\-]{1,23}$]: with [match]
    the [$] also matches just before a final newline. *)
Definition TOKEN_RE_match (s : string) : bool :=
  NAME_TOKEN_RE s
  || (endswith s (String newline "")
      && NAME_TOKEN_RE (substring 0 (String.length s - 1) s)).

Definition blacklist : list string :=
  ["Division"; "Premier"; "League"; "Scottish"; "Reserve"; "United"; "City";
   "Rovers"; "Athletic"; "County"; "Football"; "Club"]%string.

(** [s.isupper()]: no lower-case letter and at least one upper-case one. *)
Definition str_isupper (s : string) : bool :=
  negb (str_any islower s) && str_any isupper s.

Definition is_plausible_token (s0 : string) : bool :=
  let s := strip s0 in
  if negb ((2 <=? String.length s) && (String.length s <=? 24)) then false
  else if negb (TOKEN_RE_match s) then false
  else if existsb (String.eqb s) blacklist then false
  else if str_isupper s && (5 <? String.length s) then false
  else true.

(** The body of the loop of [extract_slot16_tokens] at offset [off]: the
    tokens it yields; [None] is the [IndexError] of [blk[0]] on an empty
    block. *)
Definition slot16_step (data : list byte) (maxlen recsize off : Z)
  : option (list token) :=
  let blk := py_slice data off (off + recsize) in
  match blk with
  | [] => None
  | b0 :: _ =>
      let L := byte_z b0 in
      if negb ((1 <=? L) && (L <=? maxlen))%Z then Some []
      else
        let raw := py_slice blk 1 (1 + L) in
        let s := strip (decode_cp437 raw) in
        if is_plausible_token s then Some [mk_token s "slot16" off]
        else Some []
  end.

Fixpoint slot16_loop (data : list byte) (maxlen recsize : Z) (offs : list Z)
    (out : list token) : option (list token) :=
  match offs with
  | [] => Some out
  | off :: rest =>
      match slot16_step data maxlen recsize off with
      | None => None
      | Some ts => slot16_loop data maxlen recsize rest (out ++ ts)
      end
  end.

(** [list(extract_slot16_tokens(data, start, recsize))]; [None] is the
    [ValueError] of [range] with a zero step or the [IndexError] of the
    body. *)
Definition extract_slot16_tokens (data : list byte) (start recsize : Z)
  : option (list token) :=
  let maxlen := (recsize - 1)%Z in
  match py_range start (len data - recsize + 1)%Z recsize with
  | None => None
  | Some offs => slot16_loop data maxlen recsize offs []
  end.

(** [NAME_RUN_RE.finditer(text)] for [[A-Za-z'\-]{minrun,}]: the maximal
    runs of name characters that have at least [minrun] characters, each
    with its start index.  (With [minrun = 0] the expression also matches
    the empty string between runs; an empty blob yields no token.)
    [pos] is the index of the next character, [cur] the run in progress
    and [start] the index where it began. *)
Definition flush_run (minrun start : nat) (cur : string) : list (nat * string) :=
  if truthy cur && (minrun <=? String.length cur) then [(start, cur)] else [].

Fixpoint name_runs (minrun : nat) (text : string) (pos start : nat)
    (cur : string) : list (nat * string) :=
  match text with
  | EmptyString => flush_run minrun start cur
  | String c text' =>
      if name_token_char c
      then name_runs minrun text' (S pos) start (add_char cur c)
      else flush_run minrun start cur
           ++ name_runs minrun text' (S pos) (S pos) ""
  end.

Definition NAME_RUN_RE_finditer (minrun : nat) (text : string)
  : list (nat * string) :=
  name_runs minrun text 0 0 "".

(** The inner loop of [extract_blob_tokens] for one match. *)
Definition blob_tokens_of (m : nat * string) : list token :=
  flat_map
    (fun t =>
       let t' := strip t in
       if is_plausible_token t' then [mk_token t' "blob" (Z.of_nat (fst m))]
       else [])
    (split_concatenated_names (snd m)).

(** [list(extract_blob_tokens(text))], with the bound of [NAME_RUN_RE]
    (200 unless [--minrun] sets it) as an argument. *)
Definition extract_blob_tokens (minrun : nat) (text : string) : list token :=
  flat_map blob_tokens_of (NAME_RUN_RE_finditer minrun text).

(** [s[:1].upper() + s[1:]] for a text that is empty or starts with an
    ASCII character. *)
Definition capitalize_first (s : string) : string :=
  match s with
  | EmptyString => EmptyString
  | String c r => String (TeamListB.ascii_upper c) r
  end.

(** The domain on which [capitalize_first] is Python's expression: outside
    ASCII, [upper()] can leave the cp437 character set. *)
Definition starts_ascii (s : string) : bool :=
  match s with
  | EmptyString => true
  | String c _ => (code c <? 128)%N
  end.

Definition pair := (string * string * string * Z)%type.

(** [v in firstnames], the set as a list. *)
Definition mem (v : string) (names : list string) : bool :=
  existsb (String.eqb v) names.

(** The loop of [infer_pairs]; the recursion on [rest'] is [i += 2], the
    one on [rest] is [i += 1]. *)
Fixpoint infer_loop (firstnames : list string) (tokens : list token)
    (pairs : list pair) (singles : list token) : list pair * list token :=
  match tokens with
  | [] => (pairs, singles)
  | t :: rest =>
      let v := capitalize_first (value t) in
      match rest with
      | nxt :: rest' =>
          if mem v firstnames && is_plausible_token (value nxt)
          then infer_loop firstnames rest'
                 (pairs ++ [(v, value nxt, source t, offset t)]) singles
          else infer_loop firstnames rest pairs (singles ++ [t])
      | [] => infer_loop firstnames rest pairs (singles ++ [t])
      end
  end.

Definition infer_pairs (tokens : list token) (firstnames : list string)
  : list pair * list token :=
  infer_loop firstnames tokens [] [].

(** The two de-duplication loops of [main]: an element whose key was seen
    is skipped, another is recorded and kept. *)
Fixpoint unique_loop {A K : Type} (key : A -> K) (eqb : K -> K -> bool)
    (l : list A) (seen : list K) (out : list A) : list A :=
  match l with
  | [] => out
  | x :: rest =>
      if existsb (eqb (key x)) seen then unique_loop key eqb rest seen out
      else unique_loop key eqb rest (key x :: seen) (out ++ [x])
  end.

Definition pair_key (p : pair) : string * string := (fst (fst (fst p)), snd (fst (fst p))).

Definition pair_key_eqb (k1 k2 : string * string) : bool :=
  String.eqb (fst k1) (fst k2) && String.eqb (snd k1) (snd k2).

Definition pairs_unique (pairs : list pair) : list pair :=
  unique_loop pair_key pair_key_eqb pairs [] [].

Definition singles_unique (singles : list token) : list token :=
  unique_loop value String.eqb singles [] [].

(** The pairing of [t] and [nxt] that [infer_pairs] records. *)
Definition pair_of (t nxt : token) : pair :=
  (capitalize_first (value t), value nxt, source t, offset t).

(** The tokens the body of the loop of [extract_slot16_tokens] yields for
    a record that lies inside the buffer and starts with the byte [b0]. *)
Definition slot16_yield (data : list byte) (recsize off : Z) (b0 : byte)
  : list token :=
  if ((1 <=? byte_z b0) && (byte_z b0 <=? recsize - 1))%Z then
    let s := strip (decode_cp437
                      (slice data (Z.to_nat off + 1)
                             (Z.to_nat off + 1 + Scanner.byte_val b0))) in
    if is_plausible_token s then [mk_token s "slot16" off] else []
  else [].

(** What holds of a token of [extract_slot16_tokens]. *)
Definition slot16_token_ok (data : list byte) (start recsize : Z) (t : token)
  : Prop :=
  source t = "slot16"%string
  /\ (exists j, 0 <= j /\ offset t = start + j * recsize)%Z
  /\ (offset t + recsize <= len data)%Z
  /\ is_plausible_token (value t) = true
  /\ NAME_TOKEN_RE (value t) = true
  /\ (Z.of_nat (String.length (value t)) <= recsize - 1)%Z.

(** A match of [NAME_RUN_RE] in [text]: a run of name characters, not
    empty and at least [minrun] long, that stands in the text at its start
    index. *)
Definition run_ok (minrun : nat) (text : string) (m : nat * string) : Prop :=
  exists p q,
    text = (p ++ snd m ++ q)%string
    /\ fst m = String.length p
    /\ minrun <= String.length (snd m)
    /\ snd m <> ""%string
    /\ str_all name_token_char (snd m) = true.

(** What holds of a token of [extract_blob_tokens]. *)
Definition blob_token_ok (minrun : nat) (text : string) (t : token) : Prop :=
  source t = "blob"%string
  /\ is_plausible_token (value t) = true
  /\ NAME_TOKEN_RE (value t) = true
  /\ exists m,
       run_ok minrun text m
       /\ offset t = Z.of_nat (fst m)
       /\ In (value t) (split_concatenated_names (snd m)).

(** A pair [infer_pairs] may record from [tokens]: two adjacent tokens,
    the first a known first name once capitalised, the second plausible. *)
Definition paired (firstnames : list string) (tokens : list token) (p : pair)
  : Prop :=
  exists l1 t nxt l2,
    tokens = l1 ++ t :: nxt :: l2
    /\ p = pair_of t nxt
    /\ mem (capitalize_first (value t)) firstnames = true
    /\ is_plausible_token (value nxt) = true.

End Names.

(** * Verified properties *)

Import Py.

(** C1: segmenting "AndersonDiamondMcNaughtonMacPherson" yields exactly
    Anderson, Diamond, McNaughton, MacPherson, in that order, with both
    implementations of the segmenter. *)
Theorem segment_constructed_blob :
  Segmenter.tokenize_mixed "AndersonDiamondMcNaughtonMacPherson"
    = ["Anderson"; "Diamond"; "McNaughton"; "MacPherson"]
  /\ Segmenter.split_concatenated_names "AndersonDiamondMcNaughtonMacPherson"
    = ["Anderson"; "Diamond"; "McNaughton"; "MacPherson"].
Proof. split; vm_compute; reflexivity. Qed.

(** ** Token Segmenter: shape of the tokens *)

Section SegmenterShape.
Import Segmenter.

Lemma str_all_app p s1 s2 :
  str_all p (s1 ++ s2)%string = str_all p s1 && str_all p s2.
Proof.
  induction s1 as [|c s1 IH]; simpl; [reflexivity|].
  rewrite IH. apply andb_assoc.
Qed.

Lemma truthy_nonempty s : truthy s = true -> s <> "".
Proof. destruct s; simpl; congruence. Qed.

Lemma append_nonempty_l s1 s2 : s1 <> "" -> (s1 ++ s2)%string <> "".
Proof. destruct s1; simpl; congruence. Qed.

Lemma well_formed_append t1 t2 :
  well_formed t1 -> well_formed t2 -> well_formed (t1 ++ t2)%string.
Proof.
  intros [Hn1 Ha1] [_ Ha2]. split.
  - now apply append_nonempty_l.
  - rewrite str_all_app, Ha1, Ha2. reflexivity.
Qed.

Lemma flush_shape st : shape_inv st -> shape_inv (flush st).
Proof.
  intros [Ht Hc]. unfold flush.
  destruct (truthy (cur st)) eqn:E; [|now split].
  split; simpl; [|reflexivity].
  apply Forall_app. split; [assumption|].
  constructor; [|constructor].
  split; [now apply truthy_nonempty | assumption].
Qed.

Lemma step_shape st ch : shape_inv st -> shape_inv (step st ch).
Proof.
  intros Hinv. unfold step.
  destruct (Ascii.eqb ch " "); [now apply flush_shape|].
  destruct (is_name_char ch) eqn:Hch; simpl; [|now apply flush_shape].
  destruct (truthy (cur st) && isupper ch && cur_ends_lower (cur st)).
  - destruct (flush_shape st Hinv) as [Ht _].
    split; simpl; [assumption | now rewrite Hch].
  - destruct Hinv as [Ht Hc]. split; simpl; [assumption|].
    unfold add_char. rewrite str_all_app, Hc. simpl. now rewrite Hch.
Qed.

Lemma scan_shape s : forall st, shape_inv st -> shape_inv (scan s st).
Proof.
  induction s as [|ch s IH]; intros st Hinv; simpl; [assumption|].
  apply IH. now apply step_shape.
Qed.

Lemma boundary_pass_shape s : Forall well_formed (boundary_pass s).
Proof.
  unfold boundary_pass.
  apply (flush_shape (scan s start)).
  apply scan_shape. split; simpl; [constructor | reflexivity].
Qed.

Lemma merge_prefix_shape p :
  well_formed p ->
  forall toks, Forall well_formed toks -> Forall well_formed (merge_prefix p toks).
Proof.
  intros Hp toks.
  remember (List.length toks) as n eqn:Hn.
  revert toks Hn. induction n as [n IH] using lt_wf_ind.
  intros toks Hn Hall. destruct toks as [|t rest]; simpl; [constructor|].
  inversion Hall as [|? ? Ht Hrest]; subst.
  destruct (String.eqb t p).
  - destruct rest as [|nxt rest']; [now constructor|].
    inversion Hrest as [|? ? Hnx Hr']; subst.
    constructor; [now apply well_formed_append|].
    apply (IH (List.length rest')); [simpl; lia | reflexivity | assumption].
  - constructor; [assumption|].
    apply (IH (List.length rest)); [simpl; lia | reflexivity | assumption].
Qed.

End SegmenterShape.

(** C5 (counterexample): [tokenize_mixed] returns the one-letter token "A"
    for the input "A", and the token "'abc", which begins with an
    apostrophe, for the input "'abc": neither the length bound 2..24 nor
    the leading letter holds for every token. *)
Lemma token_shape_not_enforced :
  Segmenter.tokenize_mixed "A" = ["A"]
  /\ ~ (2 <= String.length "A" <= 24)
  /\ Segmenter.tokenize_mixed "'abc" = ["'abc"]
  /\ isalpha "'" = false.
Proof.
  repeat split; try reflexivity.
  simpl. lia.
Qed.

(** C5 (amended): for every input string, every token [tokenize_mixed]
    returns is non-empty and holds only letters, apostrophes and hyphens. *)
Theorem tokenize_mixed_tokens_well_formed (s : string) :
  Forall Segmenter.well_formed (Segmenter.tokenize_mixed s).
Proof.
  unfold Segmenter.tokenize_mixed.
  apply merge_prefix_shape; [split; [discriminate | reflexivity]|].
  apply merge_prefix_shape; [split; [discriminate | reflexivity]|].
  apply boundary_pass_shape.
Qed.

(** ** Token Segmenter: the boundary rule *)

Section BoundaryRule.
Import Segmenter.

Lemma split_scan_last s : forall prev st l u,
  split_scan (s ++ String l (String u "")) prev st
  = split_step (split_scan (s ++ String l "") prev st) l u.
Proof.
  induction s as [|c s IH]; intros prev st l u; simpl; [reflexivity|].
  apply IH.
Qed.

Lemma split_run_last body l u :
  split_run (body ++ String l (String u ""))
  = split_step (split_run (body ++ String l "")) l u.
Proof.
  destruct body as [|c0 rest]; simpl; [reflexivity|].
  apply split_scan_last.
Qed.

Lemma scan_app s1 : forall s2 st, scan (s1 ++ s2) st = scan s2 (scan s1 st).
Proof.
  induction s1 as [|c s1 IH]; intros s2 st; simpl; [reflexivity|].
  apply IH.
Qed.

Lemma isupper_isalpha c : isupper c = true -> isalpha c = true.
Proof.
  destruct c as [[] [] [] [] [] [] [] []]; vm_compute; congruence.
Qed.

Lemma isupper_not_space c : isupper c = true -> Ascii.eqb c " " = false.
Proof.
  destruct c as [[] [] [] [] [] [] [] []]; vm_compute; congruence.
Qed.

Lemma ends_lower_truthy c : cur_ends_lower c = true -> truthy c = true.
Proof. destruct c; simpl; [discriminate | reflexivity]. Qed.

End BoundaryRule.

(** C6 (counterexample): in [split_concatenated_names] the token
    accumulated from "AMc" is "AMc", which is neither "Mac" nor "Mc", and
    yet the upper-case "B" after the lower-case "c" is accumulated into it
    instead of starting a new token; in [tokenize_mixed] the token
    accumulated from "Mc" is exactly "Mc", and yet "N" starts a new token. *)
Lemma boundary_exception_is_not_exact_match :
  islower "c" = true /\ isupper "B" = true /\ isupper "N" = true
  /\ Segmenter.scur (Segmenter.split_run "AMc") = "AMc"
  /\ Segmenter.split_run "AMcB" = Segmenter.mk_split [] "AMcB"
  /\ Segmenter.split_run "AMcB" <> Segmenter.mk_split ["AMc"] "B"
  /\ Segmenter.cur (Segmenter.scan "Mc" Segmenter.start) = "Mc"
  /\ Segmenter.scan "McN" Segmenter.start = Segmenter.mk_state ["Mc"] "N"
  /\ Segmenter.scan "McN" Segmenter.start <> Segmenter.mk_state [] "McN".
Proof.
  repeat split; try reflexivity; vm_compute; discriminate.
Qed.

(** C6 (amended): at a lowercase-to-uppercase transition,
    [split_concatenated_names] starts a new token unless the token
    accumulated so far ends with "Mac" or "Mc" (being exactly one of them is
    one such case), in which case the upper-case character is accumulated
    into the same token; the boundary pass of [tokenize_mixed] has no such
    exception and always closes the accumulated token there. *)
Theorem boundary_rule (body s : string) (l u : ascii) :
  islower l = true ->
  isupper u = true ->
  (let st := Segmenter.split_run (body ++ String l "") in
   Segmenter.split_run (body ++ String l (String u ""))
   = if endswith (Segmenter.scur st) "Mac" || endswith (Segmenter.scur st) "Mc"
     then Segmenter.mk_split (Segmenter.parts st) (add_char (Segmenter.scur st) u)
     else Segmenter.mk_split (Segmenter.parts st ++ [Segmenter.scur st])
                             (String u ""))
  /\ (let st := Segmenter.scan s Segmenter.start in
      Segmenter.cur_ends_lower (Segmenter.cur st) = true ->
      Segmenter.scan (s ++ String u "") Segmenter.start
      = Segmenter.mk_state (Segmenter.tokens st ++ [Segmenter.cur st])
                           (String u "")).
Proof.
  intros Hl Hu. split.
  - cbv zeta. rewrite split_run_last. unfold Segmenter.split_step.
    rewrite Hu, Hl. reflexivity.
  - cbv zeta. intros Hend. rewrite scan_app. simpl.
    unfold Segmenter.step.
    rewrite (isupper_not_space u Hu).
    unfold Segmenter.is_name_char. rewrite (isupper_isalpha u Hu). simpl.
    rewrite (ends_lower_truthy _ Hend), Hu, Hend. simpl.
    unfold Segmenter.flush. rewrite (ends_lower_truthy _ Hend). reflexivity.
Qed.

Lemma boundary_rule_witness :
  Segmenter.split_run "MacP" = Segmenter.mk_split [] "MacP"
  /\ Segmenter.scan "MacP" Segmenter.start = Segmenter.mk_state ["Mac"] "P".
Proof.
  split.
  - exact (proj1 (boundary_rule "Ma" "Mac" "c" "P" eq_refl eq_refl)).
  - exact (proj2 (boundary_rule "Ma" "Mac" "c" "P" eq_refl eq_refl) eq_refl).
Defined.

(** C7: on the mixed text "Mc abc" the boundary pass of [tokenize_mixed]
    yields the tokens "Mc" and "abc"; the following token does not start
    with an upper-case letter, and the merge pass joins the two all the
    same, where the merge pass of [split_concatenated_names] leaves them
    apart. *)
Theorem merge_ignores_case_of_next_token :
  Segmenter.boundary_pass "Mc abc" = ["Mc"; "abc"]
  /\ Segmenter.starts_upper "abc" = false
  /\ Segmenter.tokenize_mixed "Mc abc" = ["Mcabc"]
  /\ Segmenter.merge_mc ["Mc"; "abc"] = ["Mc"; "abc"].
Proof. repeat split. Qed.

(** ** Text stripping *)

Section Strip.

Lemma trailing_ws_le s : trailing_ws s <= String.length s.
Proof.
  induction s as [|c s IH]; simpl; [lia|].
  destruct ((trailing_ws s =? String.length s) && isspace c); lia.
Qed.

Lemma rstrip_empty_iff s : rstrip s = "" <-> trailing_ws s = String.length s.
Proof.
  induction s as [|c s IH]; simpl; [tauto|].
  pose proof (trailing_ws_le s) as Hle.
  destruct (rstrip s) eqn:Er.
  - assert (Ht : trailing_ws s = String.length s) by (apply IH; reflexivity).
    rewrite Ht, Nat.eqb_refl. simpl.
    destruct (isspace c); split; intros H; try reflexivity; try discriminate.
    lia.
  - assert (Ht : trailing_ws s <> String.length s)
      by (intros H; apply IH in H; discriminate).
    apply Nat.eqb_neq in Ht. rewrite Ht. simpl.
    split; [discriminate | lia].
Qed.

Lemma length_rstrip s :
  String.length (rstrip s) + trailing_ws s = String.length s.
Proof.
  induction s as [|c s IH]; simpl; [reflexivity|].
  destruct (rstrip s) eqn:Er.
  - assert (Ht : trailing_ws s = String.length s) by (apply rstrip_empty_iff; assumption).
    rewrite Ht, Nat.eqb_refl. simpl.
    destruct (isspace c); simpl; lia.
  - assert (Ht : trailing_ws s <> String.length s).
    { intros H. apply rstrip_empty_iff in H. congruence. }
    apply Nat.eqb_neq in Ht. rewrite Ht. simpl in *. lia.
Qed.

Lemma length_lstrip s :
  String.length (lstrip s) + leading_ws s = String.length s.
Proof.
  induction s as [|c s IH]; simpl; [reflexivity|].
  destruct (isspace c); simpl; lia.
Qed.

Lemma all_space_lstrip s : trailing_ws s = String.length s -> lstrip s = "".
Proof.
  induction s as [|c s IH]; simpl; [reflexivity|].
  pose proof (trailing_ws_le s) as Hle.
  destruct (trailing_ws s =? String.length s) eqn:E; simpl.
  - apply Nat.eqb_eq in E. destruct (isspace c); [intros _; now apply IH | lia].
  - lia.
Qed.

Lemma trailing_ws_lstrip s :
  lstrip s <> "" -> trailing_ws (lstrip s) = trailing_ws s.
Proof.
  induction s as [|c s IH]; simpl; [reflexivity|].
  destruct (isspace c) eqn:Ec; [|intros _; simpl; now rewrite Ec].
  intros Hne. rewrite (IH Hne).
  destruct (trailing_ws s =? String.length s) eqn:E; [|reflexivity].
  apply Nat.eqb_eq in E. apply all_space_lstrip in E. congruence.
Qed.

(** [strip] removes exactly the whitespace at the two ends, unless the
    text is whitespace only. *)
Lemma length_strip s :
  strip s <> "" ->
  String.length (strip s) + leading_ws s + trailing_ws s = String.length s.
Proof.
  unfold strip. intros Hne.
  assert (Hl : lstrip s <> "") by (intros H; rewrite H in Hne; now apply Hne).
  pose proof (length_rstrip (lstrip s)) as H1.
  pose proof (length_lstrip s) as H2.
  rewrite (trailing_ws_lstrip s Hl) in H1. lia.
Qed.

Lemma length_decode raw : String.length (decode_cp437 raw) = List.length raw.
Proof.
  unfold decode_cp437. induction raw as [|b raw IH]; simpl; [reflexivity|].
  now rewrite IH.
Qed.

End Strip.

(** ** Slot Table Scanner *)

Section SlotScanner.
Import Scanner.

Lemma skipn_cons_nth {A} (l : list A) : forall n x tl,
  skipn n l = x :: tl -> nth_error l n = Some x /\ skipn (S n) l = tl.
Proof.
  induction l as [|a l IH]; intros n x tl H.
  - destruct n; discriminate.
  - destruct n as [|n]; simpl in *.
    + injection H as -> ->. now split.
    + now apply IH.
Qed.

Lemma slice_head (data : list byte) off b0 tl :
  slice data off (off + 16) = b0 :: tl ->
  nth_error data off = Some b0 /\ tl = firstn 15 (skipn (S off) data).
Proof.
  unfold slice. replace (off + 16 - off) with 16 by lia.
  destruct (skipn off data) as [|x rest] eqn:E; [discriminate|].
  cbn [firstn]. intros H. injection H as -> <-.
  destruct (skipn_cons_nth data off b0 rest E) as [Hn Hs].
  now rewrite Hs.
Qed.

Lemma length_slice {A} (l : list A) a b :
  b <= List.length l -> List.length (slice l a b) = b - a.
Proof.
  intros H. unfold slice. rewrite length_firstn, length_skipn. lia.
Qed.

Lemma read_slot16_inv data off s :
  read_slot16 data off = Some s ->
  off + 16 <= List.length data /\ slot_decode_spec data off s
  /\ str_any isalpha s = true
  /\ str_any (fun ch => negb (allowed ch)) s = false.
Proof.
  unfold read_slot16.
  destruct (List.length data <? off + 16) eqn:Elen; [discriminate|].
  apply Nat.ltb_ge in Elen.
  destruct (slice data off (off + 16)) as [|b0 tl] eqn:Eblk; [discriminate|].
  destruct (slice_head data off b0 tl Eblk) as [Hnth Htl].
  destruct ((1 <=? byte_val b0) && (byte_val b0 <=? 15)) eqn:EL; [|discriminate].
  apply andb_true_iff in EL. destruct EL as [H1 H15].
  apply Nat.leb_le in H1, H15. cbn [negb].
  assert (Hraw : slice (b0 :: tl) 1 (1 + byte_val b0)
                 = slice data (off + 1) (off + 1 + byte_val b0)).
  { unfold slice. replace (1 + byte_val b0 - 1) with (byte_val b0) by lia.
    replace (off + 1 + byte_val b0 - (off + 1)) with (byte_val b0) by lia.
    cbn [skipn]. rewrite Htl, firstn_firstn.
    replace (Nat.min (byte_val b0) 15) with (byte_val b0) by lia.
    now replace (off + 1) with (S off) by lia. }
  rewrite Hraw.
  set (raw := slice data (off + 1) (off + 1 + byte_val b0)).
  destruct (truthy (strip (decode_cp437 raw))) eqn:Et; [|discriminate].
  destruct (str_any isalpha (strip (decode_cp437 raw))) eqn:Ea; [|discriminate].
  cbn [negb orb].
  destruct (str_any (fun ch => negb (allowed ch)) (strip (decode_cp437 raw)))
    eqn:Eal; [discriminate|].
  intros H. injection H as <-.
  split; [assumption|]. split; [|now split].
  exists b0. split; [assumption|]. cbv zeta. fold raw.
  assert (Hlen : List.length raw = byte_val b0).
  { unfold raw. rewrite length_slice; lia. }
  repeat split; try assumption.
  pose proof (length_strip (decode_cp437 raw)) as Hs.
  rewrite length_decode, Hlen in Hs. apply Hs.
  now apply truthy_nonempty.
Qed.

Lemma read_slot16_local data off :
  off + 16 <= List.length data ->
  read_slot16 data off = read_slot16 (slice data off (off + 16)) 0.
Proof.
  intros Hlen. unfold read_slot16 at 2.
  assert (H16 : List.length (slice data off (off + 16)) = 16)
    by (rewrite length_slice; lia).
  rewrite H16. cbn [Nat.add Nat.ltb Nat.leb].
  replace (slice (slice data off (off + 16)) 0 16) with (slice data off (off + 16)).
  - unfold read_slot16.
    assert (E : (List.length data <? off + 16) = false) by (apply Nat.ltb_ge; lia).
    now rewrite E.
  - set (blk := slice data off (off + 16)) in *.
    unfold slice. cbn [skipn Nat.sub]. rewrite <- H16. symmetry. apply firstn_all.
Qed.

Lemma slice_middle {A} (pre r post : list A) :
  slice (pre ++ r ++ post) (List.length pre) (List.length pre + List.length r) = r.
Proof.
  unfold slice. rewrite skipn_app, skipn_all, Nat.sub_diag. cbn [skipn app].
  replace (List.length pre + List.length r - List.length pre)
    with (List.length r + 0) by lia.
  rewrite firstn_app_2. cbn [firstn]. apply app_nil_r.
Qed.

Lemma read_slot16_at pre r post :
  List.length r = 16 ->
  read_slot16 (pre ++ r ++ post) (List.length pre) = read_slot16 r 0.
Proof.
  intros Hr. rewrite read_slot16_local.
  - rewrite <- Hr at 1. now rewrite slice_middle.
  - rewrite !length_app. lia.
Qed.




End SlotScanner.

(** The loops are run on fuel taken from the length of the buffer; the
    fuel never runs out: the inner loop ends on a failed read, and the
    result of the outer loop does not depend on the fuel above that bound. *)

Section SlotScannerFuel.
Import Scanner.

Lemma read_slot16_past_end data off :
  List.length data < off + 16 -> read_slot16 data off = None.
Proof.
  intros H. unfold read_slot16.
  assert (E : (List.length data <? off + 16) = true) by (apply Nat.ltb_lt; lia).
  now rewrite E.
Qed.

Lemma read_run_stops fuel : forall data off acc,
  List.length data < off + 16 * fuel ->
  read_slot16 data (snd (read_run fuel data off acc)) = None.
Proof.
  induction fuel as [|fuel IH]; intros data off acc H; cbn [read_run].
  - apply read_slot16_past_end. simpl. lia.
  - destruct (read_slot16 data off) eqn:E; [|exact E].
    apply IH. lia.
Qed.

Lemma read_run_fuel f1 : forall f2 data off acc,
  List.length data < off + 16 * f1 ->
  List.length data < off + 16 * f2 ->
  read_run f1 data off acc = read_run f2 data off acc.
Proof.
  induction f1 as [|f1 IH]; intros f2 data off acc H1 H2.
  - destruct f2 as [|f2]; [reflexivity|]. cbn [read_run].
    rewrite read_slot16_past_end by lia. reflexivity.
  - cbn [read_run]. destruct f2 as [|f2]; cbn [read_run].
    + rewrite read_slot16_past_end by lia. reflexivity.
    + destruct (read_slot16 data off); [|reflexivity].
      apply IH; lia.
Qed.

Lemma read_run_offset fuel : forall data off acc,
  snd (read_run fuel data off acc) + 16 * List.length acc
  = off + 16 * List.length (fst (read_run fuel data off acc)).
Proof.
  induction fuel as [|fuel IH]; intros data off acc; cbn [read_run].
  - simpl. lia.
  - destruct (read_slot16 data off); [|simpl; lia].
    specialize (IH data (off + 16) (acc ++ [(off, s)])).
    rewrite length_app in IH. simpl in IH. lia.
Qed.

Lemma find_tables_fuel f1 : forall f2 data i tables,
  List.length data <= i + f1 ->
  List.length data <= i + f2 ->
  find_tables_from f1 data i tables = find_tables_from f2 data i tables.
Proof.
  induction f1 as [|f1 IH]; intros f2 data i tables H1 H2.
  - destruct f2 as [|f2]; [reflexivity|]. cbn [find_tables_from].
    destruct (Z.ltb_spec (Z.of_nat i) (Z.of_nat (List.length data) - 16));
      [lia | reflexivity].
  - cbn [find_tables_from].
    destruct (Z.ltb_spec (Z.of_nat i) (Z.of_nat (List.length data) - 16)) as [Hlt|Hge].
    + destruct f2 as [|f2]; [lia|]. cbn [find_tables_from].
      destruct (Z.ltb_spec (Z.of_nat i) (Z.of_nat (List.length data) - 16));
        [|lia].
      pose proof (read_run_offset (S (List.length data)) data i []) as Hoff.
      destruct (read_run (S (List.length data)) data i []) as [slots off].
      cbn [fst snd List.length] in Hoff.
      destruct (Nat.leb_spec 8 (List.length slots)).
      * apply IH; lia.
      * apply IH; lia.
    + destruct f2 as [|f2]; [reflexivity|]. cbn [find_tables_from].
      destruct (Z.ltb_spec (Z.of_nat i) (Z.of_nat (List.length data) - 16));
        [lia | reflexivity].
Qed.

End SlotScannerFuel.

(** C9 (counterexample): the slot [3, " Ab", padding] decodes to "Ab", of
    length 2, although its declared length is 3 and none of its three text
    bytes is trailing padding: the leading space is stripped as well. *)
Lemma slot_text_loses_leading_padding :
  let data := x03 :: list_byte_of_string " Ab" ++ repeat x00 12 in
  Scanner.read_slot16 data 0 = Some "Ab"
  /\ Scanner.byte_val x03 = 3
  /\ trailing_ws (decode_cp437 (slice data 1 4)) = 0
  /\ String.length "Ab" <> 3 - 0.
Proof. repeat split. simpl. lia. Qed.

(** C9 (amended): whenever [read_slot16] decodes a record, the length byte
    [L] satisfies [1 <= L <= 15], the [L] text bytes all lie in the buffer,
    and the text returned is their decoding without the whitespace at its
    two ends: its length is [L] minus the leading and the trailing
    whitespace among the [L] text bytes. *)
Theorem read_slot16_length (data : list byte) (off : nat) (s : string) :
  Scanner.read_slot16 data off = Some s ->
  Scanner.slot_decode_spec data off s.
Proof.
  intros H. now destruct (read_slot16_inv data off s H) as (_ & Hspec & _).
Qed.

Lemma read_slot16_length_witness :
  Scanner.slot_decode_spec
    (x05 :: list_byte_of_string " Ayr " ++ repeat x00 10) 0 "Ayr".
Proof.
  exact (read_slot16_length
           (x05 :: list_byte_of_string " Ayr " ++ repeat x00 10) 0 "Ayr" eq_refl).
Defined.



(** ** Unaligned Pascal Scanner *)

Section PascalScanner.
Import Scanner.
Variables (data : list byte) (min_len max_len : Z).

Lemma pascal_step_candidate i b :
  nth_error data i = Some b ->
  pascal_step data min_len max_len i
  = if pascal_candidate data min_len max_len i (byte_val b)
    then (i + 1 + byte_val b,
          if str_any isalpha (pascal_text data i (byte_val b))
          then [(i, pascal_text data i (byte_val b))] else [])
    else (i + 1, []).
Proof.
  intros Hb. unfold pascal_step, pascal_candidate, pascal_text. rewrite Hb.
  destruct ((min_len <=? Z.of_nat (byte_val b))%Z
            && (Z.of_nat (byte_val b) <=? max_len)%Z
            && (i + 1 + byte_val b <=? List.length data)); [|reflexivity].
  cbn [andb]. reflexivity.
Qed.

Lemma pascal_step_next i : i < fst (pascal_step data min_len max_len i).
Proof.
  unfold pascal_step. destruct (nth_error data i); [|simpl; lia].
  destruct (_ && _); [|simpl; lia].
  destruct (is_printable_name_bytes _); simpl; lia.
Qed.

Lemma pascal_step_emitted i :
  Forall (fun t => fst t = i) (snd (pascal_step data min_len max_len i)).
Proof.
  unfold pascal_step. destruct (nth_error data i); [|constructor].
  destruct (_ && _); [|constructor].
  destruct (is_printable_name_bytes _); [|constructor].
  cbn [snd]. destruct (str_any _ _); repeat constructor.
Qed.

Lemma pascal_from_acc fuel : forall i out,
  pascal_from fuel data min_len max_len i out
  = out ++ pascal_from fuel data min_len max_len i [].
Proof.
  induction fuel as [|fuel IH]; intros i out; cbn [pascal_from].
  - now rewrite app_nil_r.
  - destruct (_ <? _)%Z; [|now rewrite app_nil_r].
    destruct (pascal_step data min_len max_len i) as [i' emitted].
    rewrite (IH i' (out ++ emitted)), (IH i' ([] ++ emitted)).
    cbn [app]. now rewrite app_assoc.
Qed.

Lemma pascal_from_unfold fuel i :
  (Z.of_nat i < Z.of_nat (List.length data) - 2)%Z ->
  pascal_from (S fuel) data min_len max_len i []
  = snd (pascal_step data min_len max_len i)
    ++ pascal_from fuel data min_len max_len
         (fst (pascal_step data min_len max_len i)) [].
Proof.
  intros H. cbn [pascal_from].
  destruct (Z.ltb_spec (Z.of_nat i) (Z.of_nat (List.length data) - 2)); [|lia].
  destruct (pascal_step data min_len max_len i) as [i' emitted].
  cbn [fst snd app]. apply pascal_from_acc.
Qed.

Lemma pascal_from_ge fuel : forall i,
  Forall (fun t => i <= fst t) (pascal_from fuel data min_len max_len i []).
Proof.
  induction fuel as [|fuel IH]; intros i; [constructor|].
  destruct (Z.ltb_spec (Z.of_nat i) (Z.of_nat (List.length data) - 2)) as [Hlt|Hge].
  - rewrite pascal_from_unfold by exact Hlt. apply Forall_app. split.
    + eapply Forall_impl; [|apply pascal_step_emitted]. simpl. intros t ->. lia.
    + pose proof (pascal_step_next i) as Hn.
      eapply Forall_impl; [|apply IH]. simpl. intros t Ht. lia.
  - cbn [pascal_from].
    destruct (Z.ltb_spec (Z.of_nat i) (Z.of_nat (List.length data) - 2));
      [lia | constructor].
Qed.

(** The fuel, the length of the buffer, never runs out. *)
Lemma pascal_fuel f1 : forall f2 i out,
  List.length data <= i + f1 ->
  List.length data <= i + f2 ->
  pascal_from f1 data min_len max_len i out
  = pascal_from f2 data min_len max_len i out.
Proof.
  induction f1 as [|f1 IH]; intros f2 i out H1 H2.
  - destruct f2 as [|f2]; [reflexivity|]. cbn [pascal_from].
    destruct (Z.ltb_spec (Z.of_nat i) (Z.of_nat (List.length data) - 2));
      [lia | reflexivity].
  - cbn [pascal_from].
    destruct (Z.ltb_spec (Z.of_nat i) (Z.of_nat (List.length data) - 2)).
    + destruct f2 as [|f2]; [lia|]. cbn [pascal_from].
      destruct (Z.ltb_spec (Z.of_nat i) (Z.of_nat (List.length data) - 2)); [|lia].
      pose proof (pascal_step_next i) as Hn.
      destruct (pascal_step data min_len max_len i) as [i' emitted].
      cbn [fst] in Hn. apply IH; lia.
    + destruct f2 as [|f2]; [reflexivity|]. cbn [pascal_from].
      destruct (Z.ltb_spec (Z.of_nat i) (Z.of_nat (List.length data) - 2));
        [lia | reflexivity].
Qed.

Lemma nth_error_slice {A} (l : list A) a b k :
  a <= k < b -> nth_error (slice l a b) (k - a) = nth_error l k.
Proof.
  intros H. unfold slice. rewrite nth_error_firstn.
  destruct (Nat.ltb_spec (k - a) (b - a)); [|lia].
  rewrite nth_error_skipn. f_equal. lia.
Qed.

(** The cursor never jumps over a byte that is not a printable name byte:
    a jump only crosses bytes that have been checked to be printable. *)
Lemma pascal_step_no_jump i p b :
  nth_error data p = Some b ->
  is_printable_name_byte b = false ->
  i < p ->
  fst (pascal_step data min_len max_len i) <= p.
Proof.
  intros Hb Hnp Hlt.
  destruct (nth_error data i) as [bi|] eqn:Ei.
  - rewrite (pascal_step_candidate i bi Ei).
    destruct (pascal_candidate data min_len max_len i (byte_val bi)) eqn:Ec;
      [|simpl; lia].
    cbn [fst]. destruct (Nat.le_gt_cases (i + 1 + byte_val bi) p) as [|Hgt];
      [assumption|].
    unfold pascal_candidate in Ec. apply andb_true_iff in Ec.
    destruct Ec as [_ Hpr]. unfold is_printable_name_bytes in Hpr.
    rewrite forallb_forall in Hpr.
    assert (Hin : In b (slice data (i + 1) (i + 1 + byte_val bi))).
    { apply (nth_error_In _ (p - (i + 1))).
      rewrite nth_error_slice by lia. exact Hb. }
    apply Hpr in Hin. congruence.
  - unfold pascal_step. rewrite Ei. simpl. lia.
Qed.

Lemma pascal_reaches p b :
  nth_error data p = Some b ->
  p + 2 < List.length data ->
  pascal_candidate data min_len max_len p (byte_val b) = true ->
  str_any isalpha (pascal_text data p (byte_val b)) = true ->
  is_printable_name_byte b = false ->
  forall fuel i, i <= p -> List.length data <= i + fuel ->
  exists before,
    pascal_from fuel data min_len max_len i []
    = before ++ (p, pascal_text data p (byte_val b))
        :: pascal_from (List.length data) data min_len max_len
             (p + 1 + byte_val b) []
    /\ Forall (fun t => fst t < p) before.
Proof.
  intros Hb Hp Hc Ha Hnp.
  induction fuel as [|fuel IH]; intros i Hi Hf; [lia|].
  rewrite pascal_from_unfold by lia.
  destruct (Nat.eq_dec i p) as [->|Hne].
  - rewrite (pascal_step_candidate p b Hb), Hc, Ha. cbn [fst snd].
    exists []. split; [|constructor]. cbn [app]. f_equal.
    apply pascal_fuel; lia.
  - pose proof (pascal_step_no_jump i p b Hb Hnp ltac:(lia)) as Hj.
    pose proof (pascal_step_next i) as Hn.
    pose proof (pascal_step_emitted i) as He.
    destruct (pascal_step data min_len max_len i) as [i' emitted].
    cbn [fst snd] in *.
    destruct (IH i' Hj ltac:(lia)) as (before & Heq & Hbefore).
    exists (emitted ++ before). split.
    + rewrite Heq. now rewrite app_assoc.
    + apply Forall_app. split; [|assumption].
      eapply Forall_impl; [|exact He]. simpl. intros t ->. lia.
Qed.

End PascalScanner.

(** C8 (counterexample): at cursor 0 of the buffer [3, "   ", 3, "Abc", 0, 0]
    the candidate fails (its three spaces hold no letter, so no token is
    emitted), and the cursor moves to 4, not to 1. *)
Lemma pascal_failed_candidate_skips_text :
  let data := x03 :: list_byte_of_string "   "
              ++ x03 :: list_byte_of_string "Abc" ++ [x00; x00] in
  Scanner.pascal_step data 3 24 0 = (4, [])
  /\ 4 <> 0 + 1
  /\ Scanner.extract_pascal_strings data 3 24 = [(4, "Abc")].
Proof. repeat split. discriminate. Qed.

(** C8 (amended): when the cursor is at [p] and the length byte [L] there is
    in range, the [L] following bytes lie in the buffer, are all printable
    name bytes and hold a letter, the scanner emits the token [(p, text)],
    with [text] the stripped text, and resumes at [p + 1 + L]; when moreover
    the length byte is not itself a printable name byte (as with any range
    below 32) the cursor does reach [p] on every buffer, the token appears
    in the output, every token before it has a smaller offset and every
    token after it an offset of at least [p + 1 + L].  A candidate that is
    out of range, overruns the buffer or holds a non-printable byte moves
    the cursor by one; a candidate whose bytes are all printable but hold no
    letter emits nothing and moves the cursor by [1 + L]. *)
Theorem pascal_candidate_emitted (data : list byte) (min_len max_len : Z)
    (p : nat) (b : byte) :
  nth_error data p = Some b ->
  p + 2 < List.length data ->
  Scanner.pascal_candidate data min_len max_len p (Scanner.byte_val b) = true ->
  str_any isalpha (Scanner.pascal_text data p (Scanner.byte_val b)) = true ->
  let L := Scanner.byte_val b in
  let text := Scanner.pascal_text data p L in
  Scanner.pascal_step data min_len max_len p = (p + 1 + L, [(p, text)])
  /\ (Scanner.is_printable_name_byte b = false ->
      exists before after,
        Scanner.extract_pascal_strings data min_len max_len
        = before ++ (p, text) :: after
        /\ Forall (fun t => fst t < p) before
        /\ Forall (fun t => p + 1 + L <= fst t) after)
  /\ (forall i bi, nth_error data i = Some bi ->
      let Li := Scanner.byte_val bi in
      (Scanner.pascal_candidate data min_len max_len i Li = false ->
       Scanner.pascal_step data min_len max_len i = (i + 1, []))
      /\ (Scanner.pascal_candidate data min_len max_len i Li = true ->
          str_any isalpha (Scanner.pascal_text data i Li) = false ->
          Scanner.pascal_step data min_len max_len i = (i + 1 + Li, []))).
Proof.
  intros Hb Hp Hc Ha L text. split; [|split].
  - subst L text.
    now rewrite (pascal_step_candidate data min_len max_len p b Hb), Hc, Ha.
  - intros Hnp.
    destruct (pascal_reaches data min_len max_len p b Hb Hp Hc Ha Hnp
                (List.length data) 0 ltac:(lia) ltac:(lia))
      as (before & Heq & Hbefore).
    exists before. eexists. split; [exact Heq|]. split; [assumption|].
    apply pascal_from_ge.
  - intros i bi Hbi Li. subst Li. split.
    + intros Hf.
      now rewrite (pascal_step_candidate data min_len max_len i bi Hbi), Hf.
    + intros Ht Hna.
      now rewrite (pascal_step_candidate data min_len max_len i bi Hbi), Ht, Hna.
Qed.

Lemma pascal_candidate_emitted_witness :
  let data := repeat x00 1500 ++ x08 :: list_byte_of_string "AberdeenXYZ" in
  Scanner.pascal_step data 3 24 1500 = (1509, [(1500, "Aberdeen")])
  /\ exists before after,
       Scanner.extract_pascal_strings data 3 24
       = before ++ (1500, "Aberdeen") :: after
       /\ Forall (fun t => fst t < 1500) before
       /\ Forall (fun t => 1509 <= fst t) after.
Proof.
  cbv zeta.
  assert (Hb : nth_error (repeat x00 1500 ++ x08 :: list_byte_of_string "AberdeenXYZ")
                 1500 = Some x08) by (vm_compute; reflexivity).
  assert (Hp : 1500 + 2
               < List.length (repeat x00 1500 ++ x08 :: list_byte_of_string "AberdeenXYZ"))
    by (apply Nat.ltb_lt; vm_compute; reflexivity).
  assert (Hc : Scanner.pascal_candidate
                 (repeat x00 1500 ++ x08 :: list_byte_of_string "AberdeenXYZ")
                 3 24 1500 (Scanner.byte_val x08) = true)
    by (vm_compute; reflexivity).
  assert (Ha : str_any isalpha
                 (Scanner.pascal_text
                    (repeat x00 1500 ++ x08 :: list_byte_of_string "AberdeenXYZ")
                    1500 (Scanner.byte_val x08)) = true)
    by (vm_compute; reflexivity).
  destruct (pascal_candidate_emitted _ 3%Z 24%Z 1500 x08 Hb Hp Hc Ha)
    as (Hstep & Hout & _).
  split.
  - rewrite Hstep. vm_compute. reflexivity.
  - destruct (Hout eq_refl) as (before & after & Heq & Hbefore & Hafter).
    exists before, after. split; [|split].
    + rewrite Heq. f_equal.
    + exact Hbefore.
    + exact Hafter.
Defined.

(** ** Block Mapper *)

Section BlockMapper.
Import Blocks.
Local Open Scope Z_scope.

Lemma py_slice_window {A} (l : list A) a bs :
  0 <= a -> 0 <= bs -> a + bs <= len l ->
  len (py_slice l a (a + bs)) = bs.
Proof.
  intros Ha Hbs Hlen. unfold py_slice, len in *.
  destruct (Z.ltb_spec a 0); [lia|].
  destruct (Z.ltb_spec (a + bs) 0); [lia|].
  rewrite length_firstn, length_skipn. lia.
Qed.

Lemma squadA_some tokens start_index block_size bias i w :
  0 <= block_size ->
  squadA tokens start_index block_size bias i = Some w ->
  window_ok tokens block_size (bias + (i - start_index) * block_size) w.
Proof.
  intros Hbs. unfold squadA.
  set (ws := bias + (i - start_index) * block_size).
  destruct (Z.ltb_spec ws 0); [discriminate|].
  destruct (Z.gtb_spec (ws + block_size) (len tokens)); [discriminate|].
  cbn [orb]. intros Heq. injection Heq as <-.
  repeat split; try lia. now apply py_slice_window.
Qed.

Lemma squadA_none tokens start_index block_size bias i :
  squadA tokens start_index block_size bias i = None
  <-> (bias + (i - start_index) * block_size < 0
       \/ len tokens < bias + (i - start_index) * block_size + block_size).
Proof.
  unfold squadA.
  set (ws := bias + (i - start_index) * block_size).
  destruct (Z.ltb_spec ws 0); [cbn [orb]; split; [left; lia | reflexivity]|].
  destruct (Z.gtb_spec (ws + block_size) (len tokens)); cbn [orb].
  - split; [right; lia | reflexivity].
  - split; [discriminate | lia].
Qed.

Lemma rowsA_rows tokens start_index block_size bias n :
  0 <= block_size ->
  Forall (fun row =>
            start_index <= fst row
            /\ window_ok tokens block_size
                 (bias + (fst row - start_index) * block_size) (snd row))
         (rowsA tokens start_index block_size bias n).
Proof.
  intros Hbs. unfold rowsA. apply Forall_flat_map.
  apply Forall_forall. intros k _. cbv zeta.
  destruct (Z.ltb_spec (Z.of_nat k) start_index); [constructor|].
  destruct (squadA tokens start_index block_size bias (Z.of_nat k))
    as [[|t sq]|] eqn:E; try constructor; [|constructor].
  cbn [fst snd]. split; [lia|]. now apply squadA_some.
Qed.

Lemma py_range_nonneg start stop step starts :
  0 <= start -> 0 < step ->
  py_range start stop step = Some starts ->
  Forall (fun s => exists j, 0 <= j /\ s = start + j * step) starts.
Proof.
  intros Hs Hst. unfold py_range.
  destruct (Z.eqb_spec step 0); [lia|].
  intros Heq. injection Heq as <-.
  apply Forall_map, Forall_forall. intros k _.
  exists (Z.of_nat k). split; [lia | reflexivity].
Qed.

Lemma blocks_loop_ok tokens bias block_size starts :
  0 <= bias -> 0 < block_size ->
  Forall (fun s => exists j, 0 <= j /\ s = bias + j * block_size) starts ->
  forall block_id acc,
    Forall (block_ok tokens bias block_size) acc ->
    Forall (block_ok tokens bias block_size)
           (blocks_loop tokens block_size starts block_id acc).
Proof.
  intros Hb Hbs. induction 1 as [|s rest (j & Hj & ->) _ IH];
    intros block_id acc Hacc; cbn [blocks_loop]; [assumption|].
  destruct (Z.gtb_spec (bias + j * block_size + block_size) (len tokens));
    [assumption|].
  destruct (negb _); [now apply IH|].
  apply IH. apply Forall_app. split; [assumption|].
  constructor; [|constructor]. split.
  - repeat split; try nia. apply py_slice_window; nia.
  - now exists j.
Qed.

End BlockMapper.

(** C4: in the per-index mode a window is returned exactly when
    [window_start = bias + (i - start_index) * block_size] is non-negative
    and [window_start + block_size] does not exceed the number of tokens,
    and it then holds exactly [block_size] tokens; any other entity yields
    [None], no error.  Every row of [rowsA] and, in the sequential
    content-filtered mode (its fixed start offset, 10 in the code, being
    non-negative), every block of [blocksB] is such a window. *)
Theorem block_mapper_windows (tokens : list string)
    (start_index block_size bias : Z) :
  (0 <= block_size)%Z ->
  (forall i w,
     Blocks.squadA tokens start_index block_size bias i = Some w ->
     Blocks.window_ok tokens block_size
       (bias + (i - start_index) * block_size)%Z w)
  /\ (forall i,
        Blocks.squadA tokens start_index block_size bias i = None
        <-> (bias + (i - start_index) * block_size < 0
             \/ Blocks.len tokens
                < bias + (i - start_index) * block_size + block_size)%Z)
  /\ (forall n,
        Forall (fun row =>
                  (start_index <= fst row)%Z
                  /\ Blocks.window_ok tokens block_size
                       (bias + (fst row - start_index) * block_size)%Z
                       (snd row))
               (Blocks.rowsA tokens start_index block_size bias n))
  /\ ((0 < block_size)%Z -> (0 <= bias)%Z ->
      exists blocks,
        Blocks.blocksB tokens bias block_size = Some blocks
        /\ Forall (fun b : Blocks.block =>
                     Blocks.window_ok tokens block_size (snd (fst b)) (snd b)
                     /\ exists j, (0 <= j)%Z
                                  /\ snd (fst b) = (bias + j * block_size)%Z)
                  blocks).
Proof.
  intros Hbs. split; [|split; [|split]].
  - intros i w. now apply squadA_some.
  - intros i. apply squadA_none.
  - intros n. now apply rowsA_rows.
  - intros Hpos Hbias. unfold Blocks.blocksB.
    destruct (Blocks.py_range bias (Blocks.len tokens) block_size)
      as [starts|] eqn:Er.
    + eexists. split; [reflexivity|].
      pose proof (py_range_nonneg _ _ _ _ Hbias Hpos Er) as Hst.
      pose proof (blocks_loop_ok tokens bias block_size starts Hbias Hpos Hst
                    0%Z [] (Forall_nil _)) as Hok.
      eapply Forall_impl; [|exact Hok].
      intros [[id bstart] blk]. simpl. tauto.
    + unfold Blocks.py_range in Er.
      destruct (Z.eqb_spec block_size 0); [lia | discriminate].
Qed.

Lemma block_mapper_windows_witness :
  let toks := repeat "Ayr" 40 in
  Blocks.squadA toks Blocks.start_team_index Blocks.chunkA Blocks.offsetA 7 = None
  /\ Blocks.window_ok toks Blocks.chunkA 19 (repeat "Ayr" 21)
  /\ exists blocks,
       Blocks.blocksB toks Blocks.offsetB Blocks.chunkB = Some blocks
       /\ Forall (fun b : Blocks.block =>
                    Blocks.window_ok toks Blocks.chunkB (snd (fst b)) (snd b)
                    /\ exists j, (0 <= j)%Z
                                 /\ snd (fst b)
                                    = (Blocks.offsetB + j * Blocks.chunkB)%Z)
                 blocks.
Proof.
  cbv zeta.
  destruct (block_mapper_windows (repeat "Ayr" 40) Blocks.start_team_index
              Blocks.chunkA Blocks.offsetA ltac:(vm_compute; discriminate))
    as (Hsome & Hnone & _ & _).
  destruct (block_mapper_windows (repeat "Ayr" 40) 0%Z
              Blocks.chunkB Blocks.offsetB ltac:(vm_compute; discriminate))
    as (_ & _ & _ & Hseq).
  split; [|split].
  - apply Hnone. left. vm_compute. reflexivity.
  - apply (Hsome 8%Z). vm_compute. reflexivity.
  - apply Hseq; vm_compute; [reflexivity | discriminate].
Defined.

(** ** Python floats *)

Section FloatRounding.
Import Solver.
Local Open Scope Z_scope.




























Lemma float_ge_one_nonneg x : float_ge_one x -> float_nonneg x = true.
Proof. intros [->|(m & e & -> & _)]; reflexivity. Qed.





End FloatRounding.

Section FloatOrder.
Import Solver.
Local Open Scope Z_scope.

Lemma finite_le m1 e1 m2 e2 :
  float_le (S754_finite false m1 e1) (S754_finite false m2 e2) = true
  <-> e1 < e2 \/ (e1 = e2 /\ Zpos m1 <= Zpos m2).
Proof.
  unfold float_le, SFleb, SFcompare.
  rewrite Pos.compare_cont_spec. cbn [Pos.switch_Eq].
  destruct (Z.compare_spec e1 e2); destruct (Pos.compare_spec m1 m2);
    split; intros; try easy; lia.
Qed.


Lemma float_le_refl x : float_nonneg x = true -> float_le x x = true.
Proof.
  destruct x as [[]|[]| |[] m e]; try discriminate; intros _;
    try reflexivity.
  apply finite_le. lia.
Qed.







End FloatOrder.

(** ** Numeric Table Solver: the error *)

Section SolverError.
Import Blocks Solver.
Local Open Scope Z_scope.









End SolverError.

(** ** Numeric Table Solver: the scan *)

Section SolverScan.
Import Blocks Solver.
Local Open Scope Z_scope.

Lemma u16_le_length m : forall bs,
  List.length bs = (2 * m)%nat -> List.length (u16_le bs) = m.
Proof.
  induction m as [|m IH]; intros bs H.
  - destruct bs; [reflexivity | discriminate].
  - destruct bs as [|lo [|hi rest]]; try (simpl in H; lia).
    cbn [u16_le List.length]. f_equal. apply IH. simpl in H. lia.
Qed.

Lemma unpack_length n data off vals :
  unpack_from n data off = Some vals -> len vals = Z.max n 0.
Proof.
  unfold unpack_from, len.
  set (size := 2 * Z.max n 0).
  assert (Hread : forall o, 0 <= o ->
            (if Z.of_nat (List.length data) - o <? size then None
             else Some (u16_le (firstn (Z.to_nat size)
                                       (skipn (Z.to_nat o) data)))) = Some vals ->
            Z.of_nat (List.length vals) = Z.max n 0).
  { intros o Ho.
    destruct (Z.ltb_spec (Z.of_nat (List.length data) - o) size); [discriminate|].
    intros Heq. injection Heq as <-.
    rewrite (u16_le_length (Z.to_nat (Z.max n 0))); [lia|].
    rewrite length_firstn, length_skipn. unfold size in *. lia. }
  destruct (Z.ltb_spec off 0).
  - destruct (Z.gtb_spec (off + size) 0); [discriminate|].
    destruct (Z.ltb_spec (off + Z.of_nat (List.length data)) 0); [discriminate|].
    apply Hread. lia.
  - now apply Hread.
Qed.




Lemma py_index_some {A} (l : list A) i x :
  py_index l i = Some x -> - len l <= i < len l.
Proof.
  unfold py_index.
  destruct (Z.leb_spec 0 i); destruct (Z.ltb_spec i (len l)); cbn [andb];
    try lia; destruct (Z.leb_spec (- len l) i); destruct (Z.ltb_spec i 0);
    cbn [andb]; try lia; discriminate.
Qed.



Lemma len_map {A B} (f : A -> B) l : len (map f l) = len l.
Proof. unfold len. now rewrite length_map. Qed.






End SolverScan.

(** ** Numeric Table Solver: the ranking *)

Section SolverSort.
Import Blocks Solver.



Lemma filter_keeps_Forall {A} (P : A -> Prop) (f : A -> bool) l :
  Forall P l -> Forall P (filter f l).
Proof.
  induction 1 as [|x l Hx _ IH]; cbn; [constructor|].
  destruct (f x); [now constructor | assumption].
Qed.















End SolverSort.

Section SolverRanking.
Import Blocks Solver.
Local Open Scope Z_scope.






(** With the default arguments ([search_start=0], [search_end=None],
    [step=1]) the scan visits the offsets [0 <= off < len(data) - 2 * n]. *)
Lemma default_scan_offsets data n offs off :
  0 <= n ->
  scanned_offsets data n 0 None 1 = Some offs ->
  (In off offs <-> 0 <= off < len data - 2 * n).
Proof.
  intros Hn. unfold scanned_offsets, py_range.
  change (1 =? 0) with false. change (0 <? 1) with true. cbv iota.
  rewrite Z.min_r by lia.
  destruct (Z.ltb_spec 0 (len data - 2 * n)) as [Hpos|Hneg];
    intros Heq;
    match type of Heq with Some ?l = _ => assert (Hl : offs = l) by congruence end;
    rewrite Hl, in_map_iff; setoid_rewrite in_seq.
  - rewrite Z.div_1_r. split.
    + intros (k & <- & Hk). lia.
    + intros Hoff. exists (Z.to_nat off). lia.
  - split; [intros (k & _ & Hk); simpl in Hk; lia | lia].
Qed.

End SolverRanking.






(** * Further properties of the scanners *)

Section StripFacts.

Lemma rstrip_idem s : rstrip (rstrip s) = rstrip s.
Proof.
  induction s as [|c s IH]; [reflexivity|]. cbn [rstrip].
  destruct (rstrip s) as [|d r] eqn:Er.
  - destruct (isspace c) eqn:Ec; [reflexivity|]. cbn [rstrip]. now rewrite Ec.
  - cbn [rstrip]. cbn [rstrip] in IH. now rewrite IH.
Qed.

Lemma lstrip_id s : leading_ws s = 0 -> lstrip s = s.
Proof.
  destruct s as [|c s]; [reflexivity|]. cbn.
  destruct (isspace c); [discriminate | reflexivity].
Qed.

Lemma leading_ws_lstrip s : leading_ws (lstrip s) = 0.
Proof.
  induction s as [|c s IH]; [reflexivity|]. cbn [lstrip].
  destruct (isspace c) eqn:Ec; [assumption|]. cbn. now rewrite Ec.
Qed.

Lemma leading_ws_rstrip s : leading_ws s = 0 -> leading_ws (rstrip s) = 0.
Proof.
  destruct s as [|c s]; [reflexivity|]. cbn [leading_ws rstrip].
  destruct (isspace c) eqn:Ec; [discriminate|]. intros _.
  destruct (rstrip s); cbn; now rewrite Ec.
Qed.

Lemma strip_idem s : strip (strip s) = strip s.
Proof.
  unfold strip.
  rewrite (lstrip_id (rstrip (lstrip s))).
  - apply rstrip_idem.
  - apply leading_ws_rstrip, leading_ws_lstrip.
Qed.

Lemma str_all_lstrip p s : str_all p s = true -> str_all p (lstrip s) = true.
Proof.
  induction s as [|c s IH]; [reflexivity|]. cbn [lstrip str_all].
  intros H. apply andb_true_iff in H. destruct H as [Hc Hs].
  destruct (isspace c); [now apply IH|]. cbn. now rewrite Hc, Hs.
Qed.

Lemma str_all_rstrip p s : str_all p s = true -> str_all p (rstrip s) = true.
Proof.
  induction s as [|c s IH]; [reflexivity|]. cbn [rstrip str_all].
  intros H. apply andb_true_iff in H. destruct H as [Hc Hs].
  specialize (IH Hs).
  destruct (rstrip s) as [|d r].
  - destruct (isspace c); [reflexivity|]. cbn. now rewrite Hc.
  - cbn [str_all] in *. now rewrite Hc, IH.
Qed.

Lemma str_all_strip p s : str_all p s = true -> str_all p (strip s) = true.
Proof. intros H. unfold strip. now apply str_all_rstrip, str_all_lstrip. Qed.

Lemma str_any_neg p s :
  str_any (fun ch => negb (p ch)) s = false -> str_all p s = true.
Proof.
  induction s as [|c s IH]; [reflexivity|]. cbn.
  destruct (p c); cbn; [assumption | discriminate].
Qed.

Lemma str_any_nonempty p s : str_any p s = true -> s <> "".
Proof. destruct s; [discriminate | discriminate]. Qed.

End StripFacts.

Section TextInvariant.
Import Scanner Notions.

Lemma printable_is_allowed b :
  is_printable_name_byte b = allowed (ascii_of_byte b).
Proof. destruct b; reflexivity. Qed.

Lemma printable_bytes_allowed raw :
  is_printable_name_bytes raw = str_all allowed (decode_cp437 raw).
Proof.
  unfold is_printable_name_bytes, decode_cp437.
  induction raw as [|b raw IH]; [reflexivity|]. cbn.
  now rewrite IH, printable_is_allowed.
Qed.

Lemma stripped_text_invariant x :
  str_all allowed x = true ->
  str_any isalpha (strip x) = true ->
  text_invariant (strip x).
Proof.
  intros Hall Ha. repeat split.
  - now apply (str_any_nonempty isalpha).
  - assumption.
  - now apply str_all_strip.
  - apply strip_idem.
Qed.

End TextInvariant.

(** X1: the byte test of the Pascal scanner and the character set of the
    slot decoder accept the same texts: [is_printable_name_bytes(b)] holds
    exactly when every character of [b.decode("cp437")] is in
    [ALLOWED_CHARS]. *)
Theorem byte_test_agrees_with_allowed_chars (raw : list byte) :
  Scanner.is_printable_name_bytes raw
  = str_all Scanner.allowed (decode_cp437 raw).
Proof. apply printable_bytes_allowed. Qed.

(** X2: a text returned by [read_slot16] is never empty, holds a letter,
    holds characters of [ALLOWED_CHARS] only, has no whitespace at either
    end, and is at most 15 characters long. *)
Theorem slot_text_invariant (data : list byte) (off : nat) (s : string) :
  Scanner.read_slot16 data off = Some s ->
  Notions.text_invariant s /\ String.length s <= 15.
Proof.
  intros H.
  destruct (read_slot16_inv data off s H)
    as (_ & (b0 & _ & HL & _ & Hs & Hlen) & Ha & Hal).
  split; [|lia].
  repeat split.
  - now apply (str_any_nonempty isalpha).
  - assumption.
  - now apply str_any_neg.
  - rewrite Hs. apply strip_idem.
Qed.

Lemma slot_text_invariant_witness :
  Notions.text_invariant "St. Mirren" /\ String.length "St. Mirren" <= 15.
Proof.
  exact (slot_text_invariant
           (x0c :: list_byte_of_string "St. Mirren  " ++ repeat x00 3)
           0 "St. Mirren" eq_refl).
Defined.

(** X3: [read_slot16] looks at the sixteen bytes from [off] only: the
    bytes before and after the record do not change what it returns; and
    a record cut short by the end of the buffer is not decoded. *)
Theorem slot_decode_is_local (pre r post : list byte) :
  List.length r = 16 ->
  Scanner.read_slot16 (pre ++ r ++ post) (List.length pre)
  = Scanner.read_slot16 r 0
  /\ forall k, k < 16 ->
       Scanner.read_slot16 (pre ++ firstn k r) (List.length pre) = None.
Proof.
  intros Hr. split; [now apply read_slot16_at|].
  intros k Hk. apply read_slot16_past_end.
  rewrite length_app, length_firstn. lia.
Qed.

Lemma slot_decode_is_local_witness :
  let r := x03 :: list_byte_of_string "Ayr" ++ repeat x00 12 in
  Scanner.read_slot16 ([x07; x07] ++ r ++ [x41]) 2 = Scanner.read_slot16 r 0
  /\ forall k, k < 16 ->
       Scanner.read_slot16 ([x07; x07] ++ firstn k r) 2 = None.
Proof.
  cbv zeta.
  exact (slot_decode_is_local [x07; x07]
           (x03 :: list_byte_of_string "Ayr" ++ repeat x00 12) [x41] eq_refl).
Defined.

Section SlotTables.
Import Scanner Notions.

Lemma read_run_spec fuel : forall data off acc,
  exists run,
    read_run fuel data off acc = (acc ++ run, off + 16 * List.length run)
    /\ is_run data off run.
Proof.
  induction fuel as [|fuel IH]; intros data off acc; cbn [read_run].
  - exists []. rewrite app_nil_r. cbn. split; [f_equal; lia | exact I].
  - destruct (read_slot16 data off) as [s|] eqn:E.
    + destruct (IH data (off + 16) (acc ++ [(off, s)])) as (run & Hrun & Hok).
      exists ((off, s) :: run). split.
      * rewrite Hrun, <- app_assoc. cbn [app List.length]. f_equal. lia.
      * cbn. auto.
    + exists []. rewrite app_nil_r. cbn. split; [f_equal; lia | exact I].
Qed.

Lemma is_run_start data off run :
  is_run data off run -> run <> [] -> table_start run = off.
Proof.
  destruct run as [|[o s] r]; [congruence|]. cbn. intros (-> & _) _. reflexivity.
Qed.

Lemma is_run_bound data run : forall off,
  is_run data off run -> run <> [] ->
  off + 16 * List.length run <= List.length data.
Proof.
  induction run as [|[o s] r IH]; intros off Hrun Hne; [congruence|].
  cbn in Hrun. destruct Hrun as (_ & Hread & Hr).
  destruct (read_slot16_inv data off s Hread) as (Hlen & _).
  destruct r as [|x r'].
  - simpl. lia.
  - specialize (IH (off + 16) Hr ltac:(discriminate)).
    cbn [List.length] in *. lia.
Qed.

Lemma sorted_snoc {A} (R : A -> A -> Prop) l y :
  StronglySorted R l -> Forall (fun x => R x y) l ->
  StronglySorted R (l ++ [y]).
Proof.
  induction 1 as [|x l Hl IH Hx]; intros Hy; cbn.
  - repeat constructor.
  - inversion Hy as [|? ? Hxy Hly]; subst.
    constructor; [now apply IH|].
    apply Forall_app. split; [assumption | now repeat constructor].
Qed.

Lemma find_tables_inv fuel : forall data i tables,
  tables_inv data i tables ->
  exists j, tables_inv data j (find_tables_from fuel data i tables).
Proof.
  induction fuel as [|fuel IH]; intros data i tables Hinv;
    cbn [find_tables_from]; [now exists i|].
  destruct (Z.of_nat i <? Z.of_nat (List.length data) - 16)%Z; [|now exists i].
  destruct (read_run_spec (S (List.length data)) data i []) as (run & Hrun & Hok).
  pose proof (read_run_stops (S (List.length data)) data i [] ltac:(lia))
    as Hstop.
  rewrite Hrun in *. cbn [app snd] in *.
  destruct Hinv as (Hall & Hbefore & Hsorted).
  destruct (Nat.leb_spec 8 (List.length run)) as [H8|H8].
  - assert (Hne : run <> []) by (intros ->; simpl in H8; lia).
    pose proof (is_run_start data i run Hok Hne) as Hstart.
    assert (Hfirst : exists s, read_slot16 data i = Some s).
    { destruct run as [|[o s] r]; [congruence|]. cbn in Hok.
      destruct Hok as (_ & Hread & _). eauto. }
    apply IH. split; [|split].
    + apply Forall_app. split; [assumption|]. constructor; [|constructor].
      unfold table_ok, table_stop. rewrite Hstart. auto.
    + apply Forall_app. split.
      * eapply Forall_impl; [|exact Hbefore]. intros t Ht. cbv beta in *. lia.
      * constructor; [|constructor]. unfold table_stop. rewrite Hstart. lia.
    + apply sorted_snoc; [assumption|].
      apply Forall_forall. intros t Ht.
      pose proof (proj1 (Forall_forall _ _) Hbefore t Ht) as Hle.
      destruct (proj1 (Forall_forall _ _) Hall t Ht) as (_ & _ & Hnone).
      rewrite Hstart. cbv beta in Hle.
      destruct (Nat.eq_dec (table_stop t) i) as [Heq|Hneq]; [|lia].
      rewrite Heq in Hnone. destruct Hfirst as [s Hs]. congruence.
  - apply IH. split; [assumption|]. split; [|assumption].
    eapply Forall_impl; [|exact Hbefore]. intros t Ht. cbv beta in *. lia.
Qed.

Lemma find_tables_ok data :
  Forall (fun t => table_ok data t /\ table_stop t <= List.length data)
         (find_slot16_tables data)
  /\ StronglySorted (fun t1 t2 => table_stop t1 < table_start t2)
                    (find_slot16_tables data).
Proof.
  destruct (find_tables_inv (List.length data) data 0 [])
    as (j & Hall & _ & Hsorted).
  { repeat split; constructor. }
  split; [|exact Hsorted].
  eapply Forall_impl; [|exact Hall]. intros t Hok. split; [assumption|].
  destruct Hok as (H8 & Hrun & _). unfold table_stop.
  apply is_run_bound; [assumption|]. intros ->. simpl in H8. lia.
Qed.

End SlotTables.

(** X4: every table [find_slot16_tables] returns holds at least eight
    slots; its slots sit at stride 16, each is what [read_slot16] decodes
    at its offset, the run ends inside the buffer and is maximal (the
    record after it does not decode); the tables come in increasing offset
    order and never overlap nor touch. *)
Theorem slot_tables_are_maximal_runs (data : list byte) :
  Forall (fun t => Notions.table_ok data t
                   /\ Notions.table_stop t <= List.length data)
         (Scanner.find_slot16_tables data)
  /\ StronglySorted
       (fun t1 t2 => Notions.table_stop t1 < Notions.table_start t2)
       (Scanner.find_slot16_tables data).
Proof. apply find_tables_ok. Qed.

(** X5: a buffer shorter than 128 bytes, the room eight slots take, has no
    table, whatever it holds. *)
Theorem short_buffer_has_no_table (data : list byte) :
  List.length data < 128 ->
  Scanner.find_slot16_tables data = [].
Proof.
  intros Hlen.
  destruct (Scanner.find_slot16_tables data) as [|t ts] eqn:E; [reflexivity|].
  pose proof (proj1 (find_tables_ok data)) as H.
  rewrite E in H. inversion H as [|? ? ((H8 & _) & Hstop) _]; subst.
  unfold Notions.table_stop in Hstop. lia.
Qed.

Lemma short_buffer_has_no_table_witness :
  Scanner.find_slot16_tables
    (List.concat (repeat (x03 :: list_byte_of_string "Ayr" ++ repeat x00 12) 7))
  = [].
Proof.
  apply short_buffer_has_no_table. apply Nat.ltb_lt. vm_compute. reflexivity.
Defined.

Section PascalTokens.
Import Scanner Notions.
Variables (data : list byte) (min_len max_len : Z).

Lemma pascal_step_token i :
  Forall (fun t => fst t = i /\ pascal_token_ok data min_len max_len t
                   /\ pascal_end data t = fst (pascal_step data min_len max_len i))
         (snd (pascal_step data min_len max_len i)).
Proof.
  destruct (nth_error data i) as [b|] eqn:Eb.
  - rewrite (pascal_step_candidate data min_len max_len i b Eb).
    destruct (pascal_candidate data min_len max_len i (byte_val b)) eqn:Ec;
      [|constructor].
    cbn [fst snd].
    destruct (str_any isalpha (pascal_text data i (byte_val b))) eqn:Ea;
      [|constructor].
    constructor; [|constructor]. cbn [fst snd]. split; [reflexivity|]. split.
    + exists b. cbn [fst snd]. auto.
    + unfold pascal_end. cbn [fst].
      now rewrite (nth_error_nth data i x00 Eb).
  - unfold pascal_step. rewrite Eb. constructor.
Qed.

Lemma pascal_step_at_most_one i :
  List.length (snd (pascal_step data min_len max_len i)) <= 1.
Proof.
  unfold pascal_step. destruct (nth_error data i); [|simpl; lia].
  destruct (_ && _); [|simpl; lia].
  destruct (is_printable_name_bytes _); [|simpl; lia].
  cbn [snd]. destruct (str_any _ _); simpl; lia.
Qed.

Lemma pascal_from_tokens fuel : forall i,
  Forall (pascal_token_ok data min_len max_len)
         (pascal_from fuel data min_len max_len i [])
  /\ StronglySorted (fun t1 t2 => pascal_end data t1 <= fst t2)
                    (pascal_from fuel data min_len max_len i []).
Proof.
  induction fuel as [|fuel IH]; intros i; [split; constructor|].
  destruct (Z.ltb_spec (Z.of_nat i) (Z.of_nat (List.length data) - 2)) as [Hlt|Hge].
  - rewrite pascal_from_unfold by exact Hlt.
    pose proof (pascal_step_token i) as Htok.
    pose proof (pascal_from_ge data min_len max_len fuel
                  (fst (pascal_step data min_len max_len i))) as Hge.
    destruct (IH (fst (pascal_step data min_len max_len i))) as [Hok Hsorted].
    destruct (snd (pascal_step data min_len max_len i)) as [|t [|t' em]] eqn:Hem.
    + now split.
    + inversion Htok as [|? ? (_ & Ht & Hend) _]; subst. cbn [app]. split.
      * now constructor.
      * constructor; [assumption|].
        eapply Forall_impl; [|exact Hge]. intros t2 H2. cbv beta in *. lia.
    + pose proof (pascal_step_at_most_one i) as Hone.
      rewrite Hem in Hone. simpl in Hone. lia.
  - cbn [pascal_from].
    destruct (Z.ltb_spec (Z.of_nat i) (Z.of_nat (List.length data) - 2));
      [lia | split; constructor].
Qed.

Lemma pascal_token_text t :
  pascal_token_ok data min_len max_len t -> text_invariant (snd t).
Proof.
  intros (b & _ & Hc & Hs & Ha). rewrite Hs in *.
  unfold pascal_candidate in Hc. apply andb_true_iff in Hc.
  destruct Hc as [_ Hp]. rewrite printable_bytes_allowed in Hp.
  unfold pascal_text in *. now apply stripped_text_invariant.
Qed.

End PascalTokens.

(** X6: every token [extract_pascal_strings] emits comes from a length
    byte in the configured range whose text bytes lie in the buffer and
    are all printable name bytes; its text is those bytes decoded and
    stripped, and it satisfies the same text invariant as a slot text (not
    empty, a letter in it, allowed characters only, no whitespace at either
    end). *)
Theorem pascal_tokens_are_valid (data : list byte) (min_len max_len : Z) :
  Forall (fun t => Notions.pascal_token_ok data min_len max_len t
                   /\ Notions.text_invariant (snd t))
         (Scanner.extract_pascal_strings data min_len max_len).
Proof.
  destruct (pascal_from_tokens data min_len max_len (List.length data) 0)
    as [Hok _].
  eapply Forall_impl; [|exact Hok]. intros t Ht. split; [assumption|].
  now apply (pascal_token_text data min_len max_len).
Qed.

(** X7: the tokens of [extract_pascal_strings] come in increasing offset
    order and never overlap: each token starts at or after the end of the
    bytes (length byte and text) that every earlier token consumed. *)
Theorem pascal_tokens_do_not_overlap (data : list byte) (min_len max_len : Z) :
  StronglySorted (fun t1 t2 => Notions.pascal_end data t1 <= fst t2)
                 (Scanner.extract_pascal_strings data min_len max_len).
Proof.
  now destruct (pascal_from_tokens data min_len max_len (List.length data) 0).
Qed.

(** * Further properties of the Token Segmenter *)

Section SegmenterText.
Import Segmenter Notions.

Lemma app_str_assoc (a b c : string) :
  ((a ++ b) ++ c)%string = (a ++ (b ++ c))%string.
Proof. induction a as [|x a IH]; cbn; [reflexivity | now rewrite IH]. Qed.

Lemma app_str_nil_r (a : string) : (a ++ "")%string = a.
Proof. induction a as [|x a IH]; cbn; [reflexivity | now rewrite IH]. Qed.

Lemma join_app l1 l2 : join (l1 ++ l2) = (join l1 ++ join l2)%string.
Proof.
  induction l1 as [|t l1 IH]; cbn; [reflexivity|].
  now rewrite IH, app_str_assoc.
Qed.

Lemma join_snoc l t : join (l ++ [t]) = (join l ++ t)%string.
Proof. rewrite join_app. cbn. now rewrite app_str_nil_r. Qed.

(** What has been read so far, tokens and the token in progress together. *)
Lemma flush_text st :
  (join (tokens (flush st)) ++ cur (flush st))%string
  = (join (tokens st) ++ cur st)%string.
Proof.
  unfold flush. destruct (truthy (cur st)); [|reflexivity]. cbn [tokens cur].
  now rewrite join_snoc, app_str_nil_r.
Qed.

Lemma flush_cur_empty st : cur (flush st) = "".
Proof.
  unfold flush. destruct (cur st) eqn:E; cbn; [assumption | reflexivity].
Qed.

Lemma step_text st ch :
  (join (tokens (step st ch)) ++ cur (step st ch))%string
  = ((join (tokens st) ++ cur st)
     ++ (if is_name_char ch then String ch "" else ""))%string.
Proof.
  unfold step. destruct (Ascii.eqb_spec ch " ") as [->|Hsp].
  - change (is_name_char " ") with false.
    now rewrite flush_text, app_str_nil_r.
  - destruct (is_name_char ch) eqn:Hch; cbn [negb].
    + destruct (truthy (cur st) && isupper ch && cur_ends_lower (cur st));
        cbn [tokens cur].
      * pose proof (flush_text st) as Hf. rewrite flush_cur_empty in Hf.
        rewrite app_str_nil_r in Hf. now rewrite Hf.
      * unfold add_char. now rewrite app_str_assoc.
    + now rewrite flush_text, app_str_nil_r.
Qed.

Lemma scan_text s : forall st,
  (join (tokens (scan s st)) ++ cur (scan s st))%string
  = ((join (tokens st) ++ cur st) ++ str_filter is_name_char s)%string.
Proof.
  induction s as [|ch s IH]; intros st; cbn [scan str_filter].
  - now rewrite app_str_nil_r.
  - rewrite IH, step_text.
    destruct (is_name_char ch); [|now rewrite app_str_nil_r].
    now rewrite app_str_assoc.
Qed.

Lemma boundary_pass_text s :
  join (boundary_pass s) = str_filter is_name_char s.
Proof.
  unfold boundary_pass.
  pose proof (flush_text (scan s start)) as Hf.
  rewrite flush_cur_empty, app_str_nil_r in Hf.
  rewrite Hf, scan_text. reflexivity.
Qed.

Lemma merge_prefix_text p l : join (merge_prefix p l) = join l.
Proof.
  remember (List.length l) as n eqn:Hn. revert l Hn.
  induction n as [n IH] using lt_wf_ind. intros l Hn.
  destruct l as [|t rest]; [reflexivity|]. cbn [merge_prefix].
  destruct (String.eqb_spec t p) as [->|Hne].
  - destruct rest as [|nxt rest']; [reflexivity|]. cbn [join].
    rewrite (IH (List.length rest')); [|simpl in Hn; lia | reflexivity].
    now rewrite app_str_assoc.
  - cbn [join].
    rewrite (IH (List.length rest)); [reflexivity | simpl in Hn; lia | reflexivity].
Qed.

Lemma tokenize_text s :
  join (tokenize_mixed s) = str_filter is_name_char s.
Proof.
  unfold tokenize_mixed. now rewrite !merge_prefix_text, boundary_pass_text.
Qed.

Lemma tokenize_shape s : Forall well_formed (tokenize_mixed s).
Proof.
  unfold tokenize_mixed.
  apply merge_prefix_shape; [split; [discriminate | reflexivity]|].
  apply merge_prefix_shape; [split; [discriminate | reflexivity]|].
  apply boundary_pass_shape.
Qed.

Lemma str_filter_none p s : str_any p s = false -> str_filter p s = "".
Proof.
  induction s as [|c s IH]; [reflexivity|]. cbn.
  destruct (p c); [discriminate | exact IH].
Qed.

Lemma join_empty l : Forall (fun t => t <> "") l -> join l = "" -> l = [].
Proof.
  destruct l as [|t l]; [reflexivity|]. intros Hall Hj.
  inversion Hall as [|? ? Ht _]; subst. cbn in Hj.
  destruct t; [congruence | discriminate].
Qed.

(** A prefix fragment left in the output of a merge pass can only be its
    last token. *)
Lemma merge_prefix_last p l :
  Forall (fun t => t <> "") l ->
  Forall (fun t => t <> p) (removelast (merge_prefix p l)).
Proof.
  remember (List.length l) as n eqn:Hn. revert l Hn.
  induction n as [n IH] using lt_wf_ind. intros l Hn Hall.
  destruct l as [|t rest]; [constructor|]. cbn [merge_prefix].
  inversion Hall as [|? ? Ht Hrest]; subst.
  destruct (String.eqb_spec t p) as [->|Hne].
  - destruct rest as [|nxt rest']; [constructor|].
    inversion Hrest as [|? ? Hnx Hr']; subst.
    specialize (IH (List.length rest') ltac:(simpl; lia) rest' eq_refl Hr').
    cbn [removelast].
    destruct (merge_prefix p rest'); [constructor|].
    constructor; [|exact IH].
    intros Heq. apply Hnx.
    destruct nxt; [reflexivity|].
    apply (f_equal String.length) in Heq.
    clear - Heq. induction p as [|c p IHp]; cbn in Heq; [discriminate|].
    apply IHp. now injection Heq.
  - specialize (IH (List.length rest) ltac:(simpl; lia) rest eq_refl Hrest).
    cbn [removelast].
    destruct (merge_prefix p rest); [constructor|].
    now constructor.
Qed.

Lemma removelast_cons2 {A} (x y : A) l :
  removelast (x :: y :: l) = x :: removelast (y :: l).
Proof. reflexivity. Qed.

Lemma Forall_removelast_tl {A} (P : A -> Prop) (x : A) l :
  Forall P (removelast (x :: l)) -> Forall P (removelast l).
Proof.
  destruct l as [|y l]; [constructor|]. rewrite removelast_cons2.
  intros H. now inversion H.
Qed.

Lemma merge_prefix_nonempty_iff p l : merge_prefix p l = [] -> l = [].
Proof.
  destruct l as [|t rest]; [reflexivity|]. cbn.
  destruct (String.eqb t p); [destruct rest|]; discriminate.
Qed.

(** A merge pass on prefix [p] does not bring a token [q] into the part
    before the last token when no merged token can equal [q]. *)
Lemma merge_prefix_keeps_absent p q l :
  (forall nxt, (p ++ nxt)%string <> q) ->
  Forall (fun t => t <> q) (removelast l) ->
  Forall (fun t => t <> q) (removelast (merge_prefix p l)).
Proof.
  intros Hpq.
  remember (List.length l) as n eqn:Hn. revert l Hn.
  induction n as [n IH] using lt_wf_ind. intros l Hn Hall.
  destruct l as [|t rest]; [constructor|]. cbn [merge_prefix].
  destruct (String.eqb_spec t p) as [->|Hne].
  - destruct rest as [|nxt rest']; [constructor|].
    rewrite removelast_cons2 in Hall.
    inversion Hall as [|? ? _ Hr]; subst.
    assert (Hr' : Forall (fun t => t <> q) (removelast rest'))
      by exact (Forall_removelast_tl _ nxt rest' Hr).
    specialize (IH (List.length rest') ltac:(simpl; lia) rest' eq_refl Hr').
    cbn [removelast]. destruct (merge_prefix p rest'); [constructor|].
    constructor; [apply Hpq | exact IH].
  - destruct rest as [|y r]; [constructor|].
    rewrite removelast_cons2 in Hall.
    inversion Hall as [|? ? Htq Hr]; subst.
    specialize (IH (List.length (y :: r)) ltac:(simpl; lia) (y :: r) eq_refl Hr).
    cbn [removelast].
    destruct (merge_prefix p (y :: r)) eqn:E;
      [apply merge_prefix_nonempty_iff in E; discriminate|].
    now constructor.
Qed.

End SegmenterText.

(** X8: [tokenize_mixed] neither loses nor invents nor reorders name
    characters: joining its tokens gives the letters, apostrophes and
    hyphens of the input, in order. *)
Theorem tokenize_mixed_keeps_name_characters (s : string) :
  Notions.join (Segmenter.tokenize_mixed s)
  = Notions.str_filter Segmenter.is_name_char s.
Proof. apply tokenize_text. Qed.

(** X9: an input without any letter, apostrophe or hyphen (the empty
    string, or separators only) yields no token at all. *)
Theorem tokenize_mixed_of_separators (s : string) :
  str_any Segmenter.is_name_char s = false ->
  Segmenter.tokenize_mixed s = [].
Proof.
  intros H. apply join_empty.
  - eapply Forall_impl; [|apply tokenize_shape]. now intros t [Hne _].
  - rewrite tokenize_text. now apply str_filter_none.
Qed.

Lemma tokenize_mixed_of_separators_witness :
  Segmenter.tokenize_mixed " 12, 3.;" = [].
Proof. apply tokenize_mixed_of_separators. reflexivity. Defined.

(** X10: in the output of [tokenize_mixed] a bare "Mc" or "Mac" can only
    be the last token: anywhere else it has been merged with the token
    after it. *)
Theorem tokenize_mixed_fragments_only_last (s : string) :
  Forall (fun t => t <> "Mc" /\ t <> "Mac")
         (removelast (Segmenter.tokenize_mixed s)).
Proof.
  unfold Segmenter.tokenize_mixed. cbv zeta.
  assert (Hne : Forall (fun t => t <> "") (Segmenter.boundary_pass s)).
  { eapply Forall_impl; [|apply boundary_pass_shape]. now intros t [H _]. }
  assert (Hne2 : Forall (fun t => t <> "")
                   (Segmenter.merge_prefix "Mc" (Segmenter.boundary_pass s))).
  { eapply Forall_impl;
      [|apply merge_prefix_shape;
        [split; [discriminate | reflexivity] | apply boundary_pass_shape]].
    now intros t [H _]. }
  pose proof (merge_prefix_last "Mc" _ Hne) as H1.
  pose proof (merge_prefix_keeps_absent "Mac" "Mc" _
                ltac:(intros nxt; discriminate) H1) as H2.
  pose proof (merge_prefix_last "Mac" _ Hne2) as H3.
  apply Forall_forall. intros t Ht. split.
  - exact (proj1 (Forall_forall _ _) H2 t Ht).
  - exact (proj1 (Forall_forall _ _) H3 t Ht).
Qed.

Section SplitText.
Import Segmenter Notions.

Lemma split_step_text st prev ch :
  (join (parts (split_step st prev ch)) ++ scur (split_step st prev ch))%string
  = ((join (parts st) ++ scur st) ++ String ch "")%string.
Proof.
  unfold split_step, add_char.
  destruct (isupper ch && islower prev);
    [destruct (endswith (scur st) "Mac" || endswith (scur st) "Mc")|];
    cbn [parts scur]; rewrite ?join_snoc, ?app_str_assoc; reflexivity.
Qed.

Lemma split_scan_text s : forall prev st,
  (join (parts (split_scan s prev st)) ++ scur (split_scan s prev st))%string
  = ((join (parts st) ++ scur st) ++ s)%string.
Proof.
  induction s as [|ch s IH]; intros prev st; cbn [split_scan].
  - now rewrite app_str_nil_r.
  - now rewrite IH, split_step_text, app_str_assoc.
Qed.

Lemma split_parts_text blob : join (split_parts blob) = blob.
Proof.
  destruct blob as [|c0 rest]; [reflexivity|].
  unfold split_parts, split_run. cbv zeta.
  rewrite join_snoc, split_scan_text. reflexivity.
Qed.

Lemma merge_mc_text l : join (merge_mc l) = join l.
Proof.
  remember (List.length l) as n eqn:Hn. revert l Hn.
  induction n as [n IH] using lt_wf_ind. intros l Hn.
  destruct l as [|t rest]; [reflexivity|]. cbn [merge_mc].
  destruct (String.eqb_spec t "Mc") as [->|Hne].
  - destruct rest as [|nxt rest']; [reflexivity|].
    destruct (starts_upper nxt); cbn [join].
    + rewrite (IH (List.length rest')); [|simpl in Hn; lia | reflexivity].
      now rewrite app_str_assoc.
    + rewrite (IH (List.length (nxt :: rest')));
        [reflexivity | simpl in Hn; simpl; lia | reflexivity].
  - cbn [join].
    rewrite (IH (List.length rest)); [reflexivity | simpl in Hn; lia | reflexivity].
Qed.

(** The invariant of the boundary loop: no closed part ends with "Mc",
    no part is empty, and every part but the first starts with an
    upper-case letter. *)
Lemma split_step_inv st prev ch :
  split_inv st -> split_inv (split_step st prev ch).
Proof.
  intros (Hmc & Hne & Hcur & Hup). unfold split_step.
  assert (Hadd : add_char (scur st) ch <> "")
    by (unfold add_char; now apply append_nonempty_l).
  assert (Hsame : starts_upper (add_char (scur st) ch) = starts_upper (scur st)).
  { unfold add_char. destruct (scur st); [congruence | reflexivity]. }
  assert (Hkeep : split_inv (mk_split (parts st) (add_char (scur st) ch))).
  { repeat split; cbn [parts scur]; try assumption.
    destruct (parts st) as [|p ps]; cbn [app tl] in *; [constructor|].
    apply Forall_app. apply Forall_app in Hup. destruct Hup as [Hps Hc].
    split; [assumption|]. constructor; [|constructor].
    rewrite Hsame. now inversion Hc. }
  destruct (isupper ch && islower prev) eqn:Eb; [|exact Hkeep].
  destruct (endswith (scur st) "Mac" || endswith (scur st) "Mc") eqn:Ee;
    [exact Hkeep|].
  apply andb_true_iff in Eb. destruct Eb as [Hch _].
  apply orb_false_iff in Ee. destruct Ee as [_ Ee].
  repeat split; cbn [parts scur].
  - apply Forall_app. split; [assumption | now repeat constructor].
  - apply Forall_app. split; [assumption | now repeat constructor].
  - discriminate.
  - destruct (parts st) as [|p ps]; cbn [app tl] in *.
    + now repeat constructor.
    + rewrite <- app_assoc. apply Forall_app. apply Forall_app in Hup.
      destruct Hup as [Hps Hc]. split; [assumption|].
      cbn [app]. constructor; [now inversion Hc|]. now repeat constructor.
Qed.

Lemma split_scan_inv s : forall prev st,
  split_inv st -> split_inv (split_scan s prev st).
Proof.
  induction s as [|ch s IH]; intros prev st H; cbn [split_scan]; [assumption|].
  now apply IH, split_step_inv.
Qed.

Lemma split_run_inv c0 rest : split_inv (split_run (String c0 rest)).
Proof.
  unfold split_run. apply split_scan_inv.
  repeat split; cbn [parts scur app tl]; try constructor. discriminate.
Qed.

Lemma merge_mc_id l x :
  Forall (fun p => endswith p "Mc" = false) l ->
  merge_mc (l ++ [x]) = l ++ [x].
Proof.
  induction 1 as [|t l Ht _ IH]; cbn [app merge_mc].
  - destruct (String.eqb x "Mc"); reflexivity.
  - destruct (String.eqb_spec t "Mc") as [->|Hne]; [discriminate Ht|].
    now rewrite IH.
Qed.

Lemma split_names_parts blob : split_concatenated_names blob = split_parts blob.
Proof.
  unfold split_concatenated_names.
  destruct blob as [|c0 rest]; [reflexivity|].
  unfold split_parts. cbv zeta.
  destruct (split_run_inv c0 rest) as (Hmc & _).
  now apply merge_mc_id.
Qed.

End SplitText.

(** X11: [split_concatenated_names] only cuts: joining its tokens gives
    the blob back, character for character. *)
Theorem split_concatenated_names_round_trip (blob : string) :
  Notions.join (Segmenter.split_concatenated_names blob) = blob.
Proof.
  unfold Segmenter.split_concatenated_names.
  now rewrite merge_mc_text, split_parts_text.
Qed.

(** X12: the merge loop of [split_concatenated_names] never fires on the
    parts its own boundary loop produces: a part is closed only when it
    does not end with "Mc", so the function returns the parts unchanged;
    none of them is empty, and every one but the first starts with an
    upper-case letter. *)
Theorem split_concatenated_names_parts (blob : string) :
  Segmenter.split_concatenated_names blob = Segmenter.split_parts blob
  /\ Forall (fun t => t <> "") (Segmenter.split_concatenated_names blob)
  /\ Forall (fun t => Segmenter.starts_upper t = true)
            (tl (Segmenter.split_concatenated_names blob)).
Proof.
  rewrite split_names_parts. split; [reflexivity|].
  destruct blob as [|c0 rest]; [repeat constructor|].
  unfold Segmenter.split_parts. cbv zeta.
  destruct (split_run_inv c0 rest) as (_ & Hne & Hcur & Hup).
  split; [|exact Hup].
  apply Forall_app. split; [assumption | now repeat constructor].
Qed.

(** * Further properties of the Block Mapper *)

Section BlockWindows.
Import Blocks.
Local Open Scope Z_scope.

Lemma py_slice_in_range {A} (l : list A) a b :
  0 <= a -> a <= b -> b <= len l ->
  py_slice l a b = firstn (Z.to_nat (b - a)) (skipn (Z.to_nat a) l).
Proof.
  intros Ha Hab Hb. unfold py_slice.
  destruct (Z.ltb_spec a 0); [lia|]. destruct (Z.ltb_spec b 0); [lia|].
  now rewrite !Z.min_l by lia.
Qed.

Lemma firstn_twice {A} (l : list A) n m :
  firstn n l ++ firstn m (skipn n l) = firstn (n + m) l.
Proof.
  revert l. induction n as [|n IH]; intros l; [reflexivity|].
  destruct l as [|x l]; cbn [firstn skipn Nat.add app].
  - now rewrite firstn_nil.
  - now rewrite IH.
Qed.

Lemma py_slice_adjacent {A} (l : list A) a m b :
  0 <= a -> a <= m -> m <= b -> b <= len l ->
  py_slice l a m ++ py_slice l m b = py_slice l a b.
Proof.
  intros Ha Ham Hmb Hb.
  rewrite !py_slice_in_range by lia.
  assert (Hskip : skipn (Z.to_nat m) l
                  = skipn (Z.to_nat (m - a)) (skipn (Z.to_nat a) l)).
  { rewrite skipn_skipn. f_equal. lia. }
  rewrite Hskip, firstn_twice. f_equal. lia.
Qed.

Lemma sorted_map_seq (f : nat -> Z) (R : Z -> Z -> Prop) n : forall start,
  (forall i j, (i < j)%nat -> R (f i) (f j)) ->
  StronglySorted R (map f (seq start n)).
Proof.
  induction n as [|n IH]; intros start HR; cbn; [constructor|].
  constructor; [now apply IH|].
  apply Forall_map, Forall_forall. intros j Hj. apply in_seq in Hj.
  apply HR. lia.
Qed.

Lemma py_range_sorted start stop step starts :
  0 < step ->
  py_range start stop step = Some starts ->
  StronglySorted (fun x y => x + step <= y) starts.
Proof.
  intros Hs. unfold py_range. destruct (Z.eqb_spec step 0); [lia|].
  intros Heq. match type of Heq with Some ?l = _ =>
    assert (Hl : starts = l) by congruence end.
  rewrite Hl. apply sorted_map_seq. intros i j Hij. nia.
Qed.

Lemma blocks_loop_inv tokens chunk starts : forall block_id acc,
  0 < chunk ->
  StronglySorted (fun x y => x + chunk <= y) starts ->
  blocks_inv tokens chunk block_id acc ->
  Forall (fun s => Forall (fun b => snd (fst b) + chunk <= s) acc) starts ->
  exists id', blocks_inv tokens chunk id'
                (blocks_loop tokens chunk starts block_id acc).
Proof.
  induction starts as [|s rest IH]; intros block_id acc Hc Hsorted Hinv Hlow;
    cbn [blocks_loop]; [now exists block_id|].
  destruct (s + chunk >? len tokens); [now exists block_id|].
  inversion Hsorted as [|? ? Hrest Hs]; subst.
  inversion Hlow as [|? ? Hacc Hlow']; subst.
  destruct (Nat.leb_spec 12
              (List.length (filter NAME_TOKEN_RE (py_slice tokens s (s + chunk)))))
    as [H12|H12]; cbn [negb].
  - apply IH; try assumption.
    + destruct Hinv as (Hid & Hids & Hsort & Hnames).
      split; [|split; [|split]].
      * rewrite length_app. cbn. lia.
      * rewrite map_app, length_app, Nat.add_comm. cbn [List.length Nat.add].
        rewrite seq_S, map_app, Hids. cbn. now rewrite Hid.
      * apply sorted_snoc; [assumption|].
        eapply Forall_impl; [|exact Hacc]. intros b Hb. exact Hb.
      * apply Forall_app. split; [assumption|]. now repeat constructor.
    + apply Forall_forall. intros s' Hs'.
      apply Forall_app. split.
      * exact (proj1 (Forall_forall _ _) Hlow' s' Hs').
      * constructor; [|constructor]. cbn.
        exact (proj1 (Forall_forall _ _) Hs s' Hs').
  - now apply IH.
Qed.

End BlockWindows.

(** X13: the windows of [squadA] tile the token stream: the window of
    entity [i + 1] starts where the window of entity [i] ends, so two
    squads never share a token and no token lies between them; and the
    entities that get a window form an interval of indices. *)
Theorem squads_tile_the_stream (tokens : list string)
    (start_index block_size bias : Z) (i j : Z) (wi wj : list string) :
  (0 <= block_size)%Z ->
  Blocks.squadA tokens start_index block_size bias i = Some wi ->
  Blocks.squadA tokens start_index block_size bias j = Some wj ->
  ((j = i + 1)%Z ->
   (wi ++ wj)%list
   = Blocks.py_slice tokens (bias + (i - start_index) * block_size)%Z
       (bias + (i - start_index) * block_size + 2 * block_size)%Z)
  /\ (forall m, (i <= m <= j)%Z ->
        Blocks.squadA tokens start_index block_size bias m <> None).
Proof.
  intros Hbs Hi Hj.
  destruct (squadA_some _ _ _ _ _ _ Hbs Hi) as (_ & Hi0 & Hi1 & ->).
  destruct (squadA_some _ _ _ _ _ _ Hbs Hj) as (_ & Hj0 & Hj1 & ->).
  split.
  - intros ->.
    replace (bias + (i + 1 - start_index) * block_size)%Z
      with (bias + (i - start_index) * block_size + block_size)%Z in * by lia.
    replace (bias + (i - start_index) * block_size + block_size + block_size)%Z
      with (bias + (i - start_index) * block_size + 2 * block_size)%Z in * by lia.
    apply py_slice_adjacent; lia.
  - intros m Hm Hnone. apply squadA_none in Hnone. nia.
Qed.

Lemma squads_tile_the_stream_witness :
  (repeat "Ayr" 21 ++ repeat "Ayr" 21)%list
  = Blocks.py_slice (repeat "Ayr" 70) 19 (19 + 2 * 21)
  /\ forall m, (8 <= m <= 9)%Z ->
       Blocks.squadA (repeat "Ayr" 70) Blocks.start_team_index Blocks.chunkA
         Blocks.offsetA m <> None.
Proof.
  destruct (squads_tile_the_stream (repeat "Ayr" 70) Blocks.start_team_index
              Blocks.chunkA Blocks.offsetA 8 9 (repeat "Ayr" 21) (repeat "Ayr" 21))
    as [Hadj Hint].
  - vm_compute. discriminate.
  - vm_compute. reflexivity.
  - vm_compute. reflexivity.
  - split; [now apply Hadj | exact Hint].
Defined.

(** X14: the blocks of the sequential mode are numbered 0, 1, 2, ... in
    the order they are found, lie at increasing, non-overlapping token
    offsets, and each holds at least twelve tokens of the name shape
    [NAME_TOKEN_RE]. *)
Theorem sequential_blocks_are_numbered (tokens : list string)
    (offset chunk : Z) :
  (0 < chunk)%Z ->
  exists blocks,
    Blocks.blocksB tokens offset chunk = Some blocks
    /\ map (fun b : Blocks.block => fst (fst b)) blocks
       = map Z.of_nat (seq 0 (List.length blocks))
    /\ StronglySorted
         (fun b1 b2 : Blocks.block =>
            (snd (fst b1) + chunk <= snd (fst b2))%Z) blocks
    /\ Forall (fun b : Blocks.block =>
                 12 <= List.length (filter Blocks.NAME_TOKEN_RE (snd b)))
              blocks.
Proof.
  intros Hc. unfold Blocks.blocksB.
  destruct (Blocks.py_range offset (Blocks.len tokens) chunk) as [starts|] eqn:Er.
  - destruct (blocks_loop_inv tokens chunk starts 0%Z [] Hc
                (py_range_sorted _ _ _ _ Hc Er))
      as (id' & _ & Hids & Hsort & Hnames).
    + repeat split; constructor.
    + apply Forall_forall. intros s _. constructor.
    + eexists. split; [reflexivity|]. auto.
  - unfold Blocks.py_range in Er.
    destruct (Z.eqb_spec chunk 0); [lia | discriminate].
Qed.

Lemma sequential_blocks_are_numbered_witness :
  exists blocks,
    Blocks.blocksB (repeat "Ayr" 60) Blocks.offsetB Blocks.chunkB = Some blocks
    /\ map (fun b : Blocks.block => fst (fst b)) blocks
       = map Z.of_nat (seq 0 (List.length blocks))
    /\ StronglySorted
         (fun b1 b2 : Blocks.block =>
            (snd (fst b1) + Blocks.chunkB <= snd (fst b2))%Z) blocks
    /\ Forall (fun b : Blocks.block =>
                 12 <= List.length (filter Blocks.NAME_TOKEN_RE (snd b)))
              blocks.
Proof.
  apply (sequential_blocks_are_numbered (repeat "Ayr" 60)
           Blocks.offsetB Blocks.chunkB).
  reflexivity.
Defined.

(** * Further properties of the Numeric Table Solver *)

Section SolverEdges.
Import Blocks Solver.
Local Open Scope Z_scope.

Lemma py_index_out {A} (l : list A) i :
  ~ (- len l <= i < len l) -> py_index l i = None.
Proof.
  intros H. destruct (py_index l i) eqn:E; [|reflexivity].
  apply py_index_some in E. contradiction.
Qed.

Lemma abs_error_sum_bad pred truth : forall err,
  Exists (fun item => py_index pred (fst item) = None) truth ->
  abs_error_sum pred truth err = None.
Proof.
  induction truth as [|[idx val] rest IH]; intros err Hex; [inversion Hex|].
  cbn [abs_error_sum].
  destruct (py_index pred idx) as [p|] eqn:Ep; [|reflexivity].
  destruct (float_of_int (Z.abs (p - val))) as [d|]; [|reflexivity].
  apply IH. inversion Hex as [? ? Hbad|? ? Hrest]; subst; [|assumption].
  cbn in Hbad. congruence.
Qed.

Lemma for_scales_bad n off vals truth scales out :
  len vals = n ->
  Exists (fun item => ~ (- n <= fst item < n)) truth ->
  scales <> [] ->
  for_scales off vals truth scales out = None.
Proof.
  intros Hlen Hex Hs. destruct scales as [|k rest]; [congruence|].
  cbn [for_scales]. unfold _mean_abs_error.
  rewrite abs_error_sum_bad; [reflexivity|].
  eapply Exists_impl; [|exact Hex]. intros item Hi. cbv beta in *.
  apply py_index_out. now rewrite len_map, Hlen.
Qed.

Lemma for_offsets_bad data n truth scales offs off :
  0 < n ->
  Exists (fun item => ~ (- n <= fst item < n)) truth ->
  scales <> [] ->
  In off offs ->
  passes_filter data n off = true ->
  forall out, for_offsets data n truth scales offs out = None.
Proof.
  intros Hn Hex Hs Hin Hpass.
  induction offs as [|o rest IH]; intros out; [inversion Hin|].
  cbn [for_offsets].
  assert (Hskip : passes_filter data n o = false -> In off rest).
  { intros Ho. destruct Hin as [->|]; [congruence | assumption]. }
  unfold passes_filter in Hskip.
  destruct (unpack_from n data o) as [vals|] eqn:Eu;
    [|now apply IH, Hskip].
  destruct (py_max vals) as [mx|]; [|reflexivity].
  destruct (Z.eqb_spec mx 0); cbn [negb] in Hskip; [now apply IH, Hskip|].
  rewrite (for_scales_bad n o vals truth scales out); try assumption.
  - reflexivity.
  - rewrite (unpack_length _ _ _ _ Eu). lia.
Qed.

End SolverEdges.



(** X16: an anchor whose index lies outside [-n, n) makes the solver
    fail ([pred[idx]] raises [IndexError], which nothing catches, unless
    an earlier anchor has already raised [OverflowError]) as soon as one
    scanned array passes the filter and the scale list is not empty,
    wherever the anchor stands in the map. *)
Theorem solver_fails_on_anchor_out_of_range (data : list byte) (n : Z)
    (truth : list (Z * Z)) (scales : list Z) (search_start : Z)
    (search_end : option Z) (step : Z) (offs : list Z) (off : Z) :
  (0 < n)%Z ->
  Exists (fun item => ~ (- n <= fst item < n)%Z) truth ->
  scales <> [] ->
  Solver.scanned_offsets data n search_start search_end step = Some offs ->
  In off offs ->
  Solver.passes_filter data n off = true ->
  Solver.solve_u16_scaled_tables data n truth scales
    search_start search_end step = None.
Proof.
  intros Hn Hex Hs Hoffs Hin Hpass.
  unfold Solver.solve_u16_scaled_tables. rewrite Hoffs.
  now rewrite (for_offsets_bad data n truth scales offs off).
Qed.

Lemma solver_fails_on_anchor_out_of_range_witness :
  Solver.solve_u16_scaled_tables
    [x01; x00; x02; x00; x03; x00; x04; x00; x05] 3
    [(0, 1); (3, 7)]%Z [1%Z] 0 None 1 = None.
Proof.
  apply (solver_fails_on_anchor_out_of_range
           [x01; x00; x02; x00; x03; x00; x04; x00; x05] 3
           [(0, 1); (3, 7)]%Z [1%Z] 0 None 1 [0; 1; 2]%Z 0%Z).
  - reflexivity.
  - right. left. cbn. intros [_ H]. discriminate H.
  - discriminate.
  - vm_compute. reflexivity.
  - now left.
  - vm_compute. reflexivity.
Defined.



Section SolverFields.
Import Blocks Solver.
Local Open Scope Z_scope.






End SolverFields.



(** * The 32-bit solver *)

Section Solver32Facts.
Import Blocks Solver Solver32.
Local Open Scope Z_scope.







End Solver32Facts.



(** * The per-team attribute dump *)

Section AttrFacts.
Import Blocks Solver Attrs.
Local Open Scope Z_scope.

Lemma nth_error_u16_le : forall k bs,
  nth_error (u16_le bs) k =
  match nth_error bs (2 * k)%nat, nth_error bs (2 * k + 1)%nat with
  | Some lo, Some hi => Some (byte_z lo + 256 * byte_z hi)
  | _, _ => None
  end.
Proof.
  induction k as [|k IH]; intros bs.
  - destruct bs as [|lo [|hi rest]]; reflexivity.
  - replace (2 * S k)%nat with (S (S (2 * k))) by lia.
    destruct bs as [|lo [|hi rest]]; try reflexivity.
    cbn [u16_le nth_error Nat.add]. apply IH.
Qed.

(** A byte inside the buffer is read, one outside is [None]. *)
Lemma byte_at_spec data o :
  0 <= o ->
  byte_at data o = option_map byte_z (nth_error data (Z.to_nat o)).
Proof.
  intros Ho. unfold byte_at, len.
  destruct (Z.ltb_spec o (Z.of_nat (List.length data))); [reflexivity|].
  rewrite (proj2 (nth_error_None data (Z.to_nat o))); [reflexivity | lia].
Qed.

(** The guarded 16-bit read is made of the two guarded byte reads. *)
Lemma u16_at_bytes data o :
  0 <= o ->
  u16_at data o =
  match byte_at data o, byte_at data (o + 1) with
  | Some lo, Some hi => Some (lo + 256 * hi)
  | _, _ => None
  end.
Proof.
  intros Ho. rewrite !byte_at_spec by lia.
  unfold u16_at, unpack_from, len.
  change (2 * Z.max 1 0) with 2.
  destruct (Z.leb_spec (o + 2) (Z.of_nat (List.length data))) as [Hin|Hout].
  - destruct (Z.ltb_spec o 0); [lia|].
    destruct (Z.ltb_spec (Z.of_nat (List.length data) - o) 2); [lia|].
    replace (Z.to_nat (o + 1)) with (Z.to_nat o + 1)%nat by lia.
    rewrite <- (Nat.add_0_r (Z.to_nat o)) at 2.
    rewrite <- !nth_error_skipn.
    assert (Hl : (2 <= List.length (skipn (Z.to_nat o) data))%nat)
      by (rewrite length_skipn; lia).
    destruct (skipn (Z.to_nat o) data) as [|x [|y r]];
      try (simpl in Hl; lia).
    reflexivity.
  - rewrite (proj2 (nth_error_None data (Z.to_nat (o + 1)))) by lia.
    now destruct (nth_error data (Z.to_nat o)).
Qed.

Lemma unpack_from_nonneg n data off vals :
  0 <= off ->
  unpack_from n data off = Some vals ->
  2 * Z.max n 0 <= len data - off
  /\ vals = u16_le (firstn (Z.to_nat (2 * Z.max n 0))
                           (skipn (Z.to_nat off) data)).
Proof.
  intros Hoff. unfold unpack_from.
  set (size := 2 * Z.max n 0).
  destruct (Z.ltb_spec off 0); [lia|].
  destruct (Z.ltb_spec (len data - off) size); [discriminate|].
  intros Heq. split; [assumption | congruence].
Qed.

(** Entry [k] of an array the solver decodes at [off] is the guarded
    16-bit read at [off + 2 * k]. *)
Lemma unpack_from_entry n data off vals (k : nat) :
  0 <= off ->
  unpack_from n data off = Some vals ->
  Z.of_nat k < n ->
  u16_at data (off + Z.of_nat k * 2) = nth_error vals k
  /\ (k < List.length vals)%nat.
Proof.
  intros Hoff Hu Hk.
  pose proof (unpack_length _ _ _ _ Hu) as Hlen. unfold len in Hlen.
  split; [|lia].
  rewrite u16_at_bytes, !byte_at_spec by lia.
  destruct (unpack_from_nonneg _ _ _ _ Hoff Hu) as [Hfit ->].
  unfold len in Hfit. clear Hu Hlen.
  rewrite nth_error_u16_le, !nth_error_firstn, !nth_error_skipn.
  destruct (Nat.ltb_spec (2 * k) (Z.to_nat (2 * Z.max n 0))); [|lia].
  destruct (Nat.ltb_spec (2 * k + 1) (Z.to_nat (2 * Z.max n 0))); [|lia].
  replace (Z.to_nat (off + Z.of_nat k * 2)) with (Z.to_nat off + 2 * k)%nat
    by lia.
  replace (Z.to_nat (off + Z.of_nat k * 2 + 1))
    with (Z.to_nat off + (2 * k + 1))%nat by lia.
  destruct (nth_error data (Z.to_nat off + 2 * k)) as [lo|];
    destruct (nth_error data (Z.to_nat off + (2 * k + 1))) as [hi|];
    reflexivity.
Qed.

Lemma rows_u16_column data vals :
  unpack_from (Z.of_nat TEAM_COUNT) data ATTR_U16_OFFSET = Some vals ->
  forall teams k,
  (k + List.length teams <= TEAM_COUNT)%nat ->
  map u16_le_ (map (fun p => row_of data (fst p) (snd p))
                   (enumerate_from k teams))
  = map Some (firstn (List.length teams) (skipn k vals)).
Proof.
  intros Hu. induction teams as [|t teams IH]; intros k Hk; [reflexivity|].
  cbn [List.length] in Hk.
  assert (H0 : 0 <= ATTR_U16_OFFSET) by (unfold ATTR_U16_OFFSET; lia).
  destruct (unpack_from_entry _ _ _ _ k H0 Hu) as [He Hlt]; [lia|].
  cbn [enumerate_from map fst snd List.length].
  destruct (nth_error vals k) as [v|] eqn:En;
    [|apply nth_error_None in En; lia].
  rewrite (IH (S k)) by lia.
  assert (Hs : skipn k vals = v :: skipn (S k) vals).
  { clear - En. revert vals En. induction k as [|k IHk]; intros [|x vals] En;
      try discriminate.
    - now injection En as ->.
    - cbn [skipn]. apply IHk. exact En. }
  rewrite Hs. cbn [firstn map]. f_equal.
  unfold row_of. cbn [u16_le_]. exact He.
Qed.

Lemma enumerate_from_fst {A : Type} (l : list A) : forall k,
  map fst (enumerate_from k l) = seq k (List.length l).
Proof.
  induction l as [|x l IH]; intros k; [reflexivity|].
  cbn [enumerate_from map fst List.length seq]. now rewrite IH.
Qed.

Lemma enumerate_from_snd {A : Type} (l : list A) : forall k,
  map snd (enumerate_from k l) = l.
Proof.
  induction l as [|x l IH]; intros k; [reflexivity|].
  cbn [enumerate_from map snd]. now rewrite IH.
Qed.

End AttrFacts.

(** X20: when the buffer holds the whole 64-entry table at
    [ATTR_U16_OFFSET], the [u16_le] column of the attribute dump is that
    table as the numeric solver decodes it at the same offset, cut to the
    number of teams dumped. *)
Theorem attribute_u16_column_is_solver_table (data : list byte)
    (teams : list string) (vals : list Z) :
  Solver.unpack_from (Z.of_nat Attrs.TEAM_COUNT) data Attrs.ATTR_U16_OFFSET
  = Some vals ->
  map Attrs.u16_le_ (Attrs.extract_team_attributes_raw data teams)
  = map Some (firstn (List.length teams) vals).
Proof.
  intros Hu. unfold Attrs.extract_team_attributes_raw.
  rewrite (rows_u16_column data vals Hu) by (rewrite length_firstn; lia).
  cbn [skipn]. rewrite length_firstn. f_equal.
  pose proof (unpack_length _ _ _ _ Hu) as Hlen. unfold Blocks.len in Hlen.
  destruct (Nat.le_ge_cases (List.length teams) Attrs.TEAM_COUNT) as [H|H].
  - now rewrite Nat.min_r.
  - rewrite Nat.min_l by assumption.
    rewrite !firstn_all2; [reflexivity| |]; unfold Attrs.TEAM_COUNT in *; lia.
Qed.

Lemma attribute_u16_column_is_solver_table_witness :
  exists vals,
    Solver.unpack_from (Z.of_nat Attrs.TEAM_COUNT) (repeat x01 3300)
                       Attrs.ATTR_U16_OFFSET = Some vals
    /\ map Attrs.u16_le_
           (Attrs.extract_team_attributes_raw (repeat x01 3300)
              ["Aberdeen"; "Celtic"]%string)
       = map Some (firstn 2 vals).
Proof.
  eexists. split; [vm_compute; reflexivity|].
  apply (attribute_u16_column_is_solver_table (repeat x01 3300)
           ["Aberdeen"; "Celtic"]%string).
  vm_compute. reflexivity.
Defined.

(** X21: the columns of the attribute dump overlap in the file, for every
    buffer: the [b3] byte of team [32 + j] is the [b4] byte of team [j]; the
    16-bit value of team [16 + j] is made of the [b2] bytes of teams [2 * j]
    and [2 * j + 1], low byte first, and that of team [48 + j] of the [b3]
    bytes of teams [2 * j] and [2 * j + 1]; a 16-bit value is absent exactly
    when one of its two bytes is. *)
Theorem attribute_columns_overlap (data : list byte) (j : nat)
    (n0 n1 n2 : string) :
  Attrs.b3_u8 (Attrs.row_of data (32 + j) n0)
  = Attrs.b4_u8 (Attrs.row_of data j n1)
  /\ Attrs.u16_le_ (Attrs.row_of data (16 + j) n0)
     = match Attrs.b2_u8 (Attrs.row_of data (2 * j) n1),
             Attrs.b2_u8 (Attrs.row_of data (2 * j + 1) n2) with
       | Some lo, Some hi => Some (lo + 256 * hi)%Z
       | _, _ => None
       end
  /\ Attrs.u16_le_ (Attrs.row_of data (48 + j) n0)
     = match Attrs.b3_u8 (Attrs.row_of data (2 * j) n1),
             Attrs.b3_u8 (Attrs.row_of data (2 * j + 1) n2) with
       | Some lo, Some hi => Some (lo + 256 * hi)%Z
       | _, _ => None
       end.
Proof.
  unfold Attrs.row_of.
  cbn [Attrs.b3_u8 Attrs.b4_u8 Attrs.b2_u8 Attrs.u16_le_].
  unfold Attrs.ATTR_B3_OFFSET, Attrs.ATTR_B4_OFFSET, Attrs.ATTR_B2_OFFSET,
    Attrs.ATTR_U16_OFFSET.
  split; [|split].
  - f_equal. lia.
  - rewrite u16_at_bytes by lia.
    replace (3168 + Z.of_nat (16 + j) * 2)%Z
      with (3200 + Z.of_nat (2 * j))%Z by lia.
    replace (3200 + Z.of_nat (2 * j) + 1)%Z
      with (3200 + Z.of_nat (2 * j + 1))%Z by lia.
    reflexivity.
  - rewrite u16_at_bytes by lia.
    replace (3168 + Z.of_nat (48 + j) * 2)%Z
      with (3264 + Z.of_nat (2 * j))%Z by lia.
    replace (3264 + Z.of_nat (2 * j) + 1)%Z
      with (3264 + Z.of_nat (2 * j + 1))%Z by lia.
    reflexivity.
Qed.

(** X22: the attribute dump has one row for each of the first 64 team
    names, numbered from 0 in order and carrying that name; the [b4_ascii]
    field of a row is empty, or the one printable ASCII character (codes
    32 to 126) whose code is the row's [b4] byte. *)
Theorem attribute_rows_follow_teams (data : list byte) (teams : list string) :
  let rows := Attrs.extract_team_attributes_raw data teams in
  map Attrs.team_name rows = firstn 64 teams
  /\ map Attrs.team_index rows = seq 0 (Nat.min 64 (List.length teams))
  /\ Forall (fun r =>
       Attrs.b4_ascii r = ""%string
       \/ exists v, Attrs.b4_u8 r = Some v /\ (32 <= v <= 126)%Z
            /\ Attrs.b4_ascii r
               = String (ascii_of_N (Z.to_N v)) ""%string) rows.
Proof.
  cbv zeta. unfold Attrs.extract_team_attributes_raw.
  change Attrs.TEAM_COUNT with 64%nat.
  split; [|split].
  - rewrite map_map. cbn [Attrs.row_of Attrs.team_name].
    change (fun x : nat * string => snd x) with (@snd nat string).
    apply enumerate_from_snd.
  - rewrite map_map. cbn [Attrs.row_of Attrs.team_index].
    change (fun x : nat * string => fst x) with (@fst nat string).
    rewrite enumerate_from_fst, length_firstn. reflexivity.
  - apply Forall_forall. intros r Hr. apply in_map_iff in Hr.
    destruct Hr as ([idx name] & <- & _).
    unfold Attrs.row_of. cbn [Attrs.b4_ascii Attrs.b4_u8 fst snd].
    unfold Attrs.ascii_of_field.
    destruct (Attrs.byte_at data _) as [v|]; [|now left].
    destruct (Z.leb_spec 32 v); [|now left].
    destruct (Z.leb_spec v 126); [|now left].
    right. exists v. cbn [andb]. auto.
Qed.

(** X23: on a buffer that ends at or before [ATTR_B1_OFFSET] (0x0C20) the
    dump still has its rows, and every attribute field of every row is
    absent. *)
Theorem attribute_dump_of_short_buffer (data : list byte)
    (teams : list string) :
  (Blocks.len data <= Attrs.ATTR_B1_OFFSET)%Z ->
  Forall (fun r =>
    Attrs.b1_u8 r = None /\ Attrs.u16_le_ r = None /\ Attrs.b2_u8 r = None
    /\ Attrs.b3_u8 r = None /\ Attrs.b4_u8 r = None
    /\ Attrs.b4_ascii r = ""%string)
    (Attrs.extract_team_attributes_raw data teams).
Proof.
  intros Hlen. apply Forall_forall. intros r Hr.
  unfold Attrs.extract_team_attributes_raw in Hr. apply in_map_iff in Hr.
  destruct Hr as ([idx name] & <- & _).
  unfold Attrs.row_of, Attrs.ATTR_B1_OFFSET, Attrs.ATTR_U16_OFFSET,
    Attrs.ATTR_B2_OFFSET, Attrs.ATTR_B3_OFFSET, Attrs.ATTR_B4_OFFSET in *.
  cbn [Attrs.b1_u8 Attrs.u16_le_ Attrs.b2_u8 Attrs.b3_u8 Attrs.b4_u8
       Attrs.b4_ascii fst snd].
  assert (Hb : forall o, (3104 <= o)%Z -> Attrs.byte_at data o = None).
  { intros o Ho. unfold Attrs.byte_at.
    destruct (Z.ltb_spec o (Blocks.len data)); [lia | reflexivity]. }
  rewrite !Hb by lia.
  repeat split.
  unfold Attrs.u16_at.
  destruct (Z.leb_spec (3168 + Z.of_nat idx * 2 + 2) (Blocks.len data));
    [lia | reflexivity].
Qed.

Lemma attribute_dump_of_short_buffer_witness :
  Forall (fun r =>
    Attrs.b1_u8 r = None /\ Attrs.u16_le_ r = None /\ Attrs.b2_u8 r = None
    /\ Attrs.b3_u8 r = None /\ Attrs.b4_u8 r = None
    /\ Attrs.b4_ascii r = ""%string)
    (Attrs.extract_team_attributes_raw [x41; x42] ["Aberdeen"; "Celtic"]%string).
Proof.
  apply (attribute_dump_of_short_buffer [x41; x42]
           ["Aberdeen"; "Celtic"]%string).
  vm_compute. discriminate.
Defined.

(** * Team List B *)

Section TeamListBFacts.
Import Scanner Notions TeamListB.

Lemma Forall_drop_middle {A} (P : A -> Prop) l1 x l2 :
  Forall P (l1 ++ x :: l2) -> Forall P (l1 ++ l2).
Proof.
  intros H. apply Forall_app in H. destruct H as [H1 H2].
  inversion H2; subst. apply Forall_app. now split.
Qed.

Lemma sorted_drop_middle {A} (R : A -> A -> Prop) l1 x l2 :
  StronglySorted R (l1 ++ x :: l2) -> StronglySorted R (l1 ++ l2).
Proof.
  induction l1 as [|y l1 IH]; cbn; intros H.
  - now inversion H.
  - inversion H as [|? ? Hs Hf]; subst. constructor; [now apply IH|].
    now apply Forall_drop_middle in Hf.
Qed.

Lemma sorted_filter {A} (R : A -> A -> Prop) (f : A -> bool) l :
  StronglySorted R l -> StronglySorted R (filter f l).
Proof.
  induction 1 as [|x l Hs IH Hf]; cbn; [constructor|].
  destruct (f x); [|assumption].
  constructor; [assumption | now apply filter_keeps_Forall].
Qed.

Lemma mem_In (k : string) (seen : list string) :
  existsb (String.eqb k) seen = true <-> In k seen.
Proof.
  rewrite existsb_exists. split.
  - intros (x & Hx & He). apply String.eqb_eq in He. now subst.
  - intros H. exists k. split; [assumption | apply String.eqb_refl].
Qed.

(** What the loop returns is what it had, followed by candidates, in their
    order: a property of lists that survives the removal of an element
    passes from [out ++ cand] to the result. *)
Lemma teamB_loop_keeps (P : list slot -> Prop) :
  (forall l1 x l2, P (l1 ++ x :: l2) -> P (l1 ++ l2)) ->
  forall cand seen out, P (out ++ cand) -> P (teamB_loop cand seen out).
Proof.
  intros Hdrop. induction cand as [|[off s] rest IH]; intros seen out HP;
    cbn [teamB_loop].
  - now rewrite app_nil_r in HP.
  - destruct (existsb _ seen); [now eapply IH, Hdrop, HP|].
    destruct (String.length s <? 4); [now eapply IH, Hdrop, HP|].
    destruct (league_word s); [now eapply IH, Hdrop, HP|].
    apply IH. now rewrite <- app_assoc.
Qed.

Lemma teamB_loop_team_like : forall cand seen out,
  Forall (fun t => team_like t = true) out ->
  Forall (fun t => team_like t = true) (teamB_loop cand seen out).
Proof.
  induction cand as [|[off s] rest IH]; intros seen out Hout;
    cbn [teamB_loop]; [assumption|].
  destruct (existsb _ seen); [now apply IH|].
  destruct (Nat.ltb_spec (String.length s) 4); [now apply IH|].
  destruct (league_word s) eqn:El; [now apply IH|].
  apply IH. apply Forall_app. split; [assumption|].
  repeat constructor. unfold team_like. cbn [snd]. rewrite El.
  now destruct (Nat.leb_spec 4 (String.length s)); [|lia].
Qed.

Lemma teamB_loop_keys : forall cand seen out,
  (forall k, In k seen <-> In k (map (fun t => lower (snd t)) out)) ->
  NoDup (map (fun t => lower (snd t)) out) ->
  let res := teamB_loop cand seen out in
  NoDup (map (fun t => lower (snd t)) res)
  /\ incl out res
  /\ forall t, In t cand -> team_like t = true ->
       In (lower (snd t)) (map (fun t => lower (snd t)) res).
Proof.
  induction cand as [|[off s] rest IH]; intros seen out Hseen Hnd;
    cbn [teamB_loop]; cbv zeta.
  - repeat split; [assumption | apply incl_refl | intros t []].
  - destruct (existsb (String.eqb (lower s)) seen) eqn:Eseen.
    + destruct (IH seen out Hseen Hnd) as (H1 & H2 & H3).
      repeat split; try assumption.
      intros t [<-|Ht] Hlike; [|now apply H3].
      cbn [snd]. apply mem_In, Hseen in Eseen.
      apply in_map_iff in Eseen. destruct Eseen as (u & Hu & Hin).
      apply in_map_iff. exists u. split; [assumption | now apply H2].
    + assert (Hskip : team_like (off, s) = false ->
                let res := teamB_loop rest seen out in
                NoDup (map (fun t => lower (snd t)) res)
                /\ incl out res
                /\ forall t, In t ((off, s) :: rest) -> team_like t = true ->
                     In (lower (snd t)) (map (fun t => lower (snd t)) res)).
      { intros Hno. destruct (IH seen out Hseen Hnd) as (H1 & H2 & H3).
        repeat split; try assumption.
        intros t [<-|Ht] Hlike; [congruence | now apply H3]. }
      destruct (Nat.ltb_spec (String.length s) 4).
      { apply Hskip. unfold team_like. cbn [snd].
        now destruct (Nat.leb_spec 4 (String.length s)); [lia|]. }
      destruct (league_word s) eqn:El.
      { apply Hskip. unfold team_like. cbn [snd]. rewrite El.
        apply andb_false_r. }
      destruct (IH (lower s :: seen) (out ++ [(off, s)])) as (H1 & H2 & H3).
      * intros k. rewrite map_app, in_app_iff. cbn. rewrite Hseen. tauto.
      * rewrite map_app. cbn [map snd].
        assert (Hnew : ~ In (lower s) (map (fun t => lower (snd t)) out)).
        { intros Hin. apply Hseen, mem_In in Hin. congruence. }
        clear - Hnd Hnew. induction out as [|o out IHo]; cbn.
        { constructor; [intros [] | constructor]. }
        cbn in Hnd, Hnew. inversion Hnd as [|? ? Hn Hd]; subst.
        constructor.
        -- rewrite in_app_iff. cbn. intros [Hi|[He|[]]]; [tauto|].
           apply Hnew. now left.
        -- apply IHo; [assumption|]. intros Hi. apply Hnew. now right.
      * repeat split; [assumption | |].
        -- intros u Hu. apply H2, in_app_iff. now left.
        -- intros t [<-|Ht] Hlike; [|now apply H3].
           apply in_map_iff. exists (off, s). split; [reflexivity|].
           apply H2, in_app_iff. right. now left.
Qed.

End TeamListBFacts.

(** X24: every entry of Team List B is a token of the Pascal scanner (with
    the default lengths 3 to 24) at an offset from 1200 to 3000, with a text
    of at least four characters that holds neither "LEAGUE" nor "DIVISION"
    in any letter case; the entries keep the scanner's order and do not
    overlap; no two entries have the same text up to letter case; and every
    scanner token of the window that passes the two text tests is
    represented by an entry with the same lower-cased text. *)
Theorem team_list_b_entries (data : list byte) :
  let pas := Scanner.extract_pascal_strings data 3 24 in
  let key := fun t : Scanner.slot => TeamListB.lower (snd t) in
  let teamB := TeamListB.teamB data in
  Forall (fun t => In t pas /\ 1200 <= fst t <= 3000
                   /\ 4 <= String.length (snd t)
                   /\ TeamListB.league_word (snd t) = false) teamB
  /\ StronglySorted (fun t1 t2 => Notions.pascal_end data t1 <= fst t2) teamB
  /\ NoDup (map key teamB)
  /\ forall t, In t pas -> TeamListB.in_window t = true ->
       TeamListB.team_like t = true -> In (key t) (map key teamB).
Proof.
  cbv zeta. unfold TeamListB.teamB.
  set (pas := Scanner.extract_pascal_strings data 3 24).
  destruct (teamB_loop_keys (filter TeamListB.in_window pas) [] [])
    as (Hnd & _ & Hall); [intros k; reflexivity | constructor |].
  split; [|split; [|split]].
  - pose proof (teamB_loop_team_like (filter TeamListB.in_window pas) [] []
                  (Forall_nil _)) as Hlike.
    assert (Hwin : Forall (fun t => In t pas /\ 1200 <= fst t <= 3000)
                     (TeamListB.teamB_loop
                        (filter TeamListB.in_window pas) [] [])).
    { apply (teamB_loop_keeps
               (Forall (fun t => In t pas /\ 1200 <= fst t <= 3000))).
      - intros l1 x l2. apply Forall_drop_middle.
      - cbn [app]. apply Forall_forall. intros t Ht.
        apply filter_In in Ht. destruct Ht as [Hin Hw]. split; [assumption|].
        unfold TeamListB.in_window in Hw. apply andb_true_iff in Hw.
        destruct Hw as [H1 H2]. apply Nat.leb_le in H1, H2. lia. }
    rewrite Forall_forall in *. intros t Ht.
    destruct (Hwin t Ht) as [Hin Hw]. specialize (Hlike t Ht).
    unfold TeamListB.team_like in Hlike. apply andb_true_iff in Hlike.
    destruct Hlike as [H4 Hl]. apply Nat.leb_le in H4.
    apply negb_true_iff in Hl. auto.
  - apply (teamB_loop_keeps
             (StronglySorted
                (fun t1 t2 => Notions.pascal_end data t1 <= fst t2))).
    + intros l1 x l2. apply sorted_drop_middle.
    + cbn [app]. apply sorted_filter.
      now destruct (pascal_from_tokens data 3 24 (List.length data) 0).
  - exact Hnd.
  - intros t Hin Hw Hlike. apply Hall; [|assumption].
    apply filter_In. now split.
Qed.

(** * Name extraction *)

Section PlausibleToken.
Import Segmenter Blocks Names.

Lemma rstrip_last_not_space : forall s c,
  last_char (rstrip s) = Some c -> isspace c = false.
Proof.
  induction s as [|a s IH]; intros c; cbn [rstrip]; [discriminate|].
  destruct (rstrip s) as [|b r] eqn:Er.
  - destruct (isspace a) eqn:Ea; cbn; [discriminate|].
    intros H. injection H as <-. exact Ea.
  - intros H. apply IH. exact H.
Qed.

Lemma endswith_char_last : forall s c,
  endswith s (String c "") = true -> last_char s = Some c.
Proof.
  unfold endswith. induction s as [|a s IH]; intros c H; [discriminate|].
  change (String.length (String a s) - String.length (String c ""))
    with (String.length s - 0) in H.
  rewrite Nat.sub_0_r in H.
  destruct s as [|b s'].
  - cbn in H. destruct (Ascii.eqb_spec a c); [now subst | discriminate].
  - cbn [last_char]. apply IH.
    change (String.length (String b s') - String.length (String c ""))
      with (String.length s' - 0).
    rewrite Nat.sub_0_r. exact H.
Qed.

Lemma strip_no_final_newline s :
  endswith (strip s) (String newline "") = false.
Proof.
  destruct (endswith (strip s) (String newline "")) eqn:E; [|reflexivity].
  apply endswith_char_last in E. unfold strip in E.
  apply rstrip_last_not_space in E. discriminate.
Qed.

Lemma name_token_length t :
  NAME_TOKEN_RE t = true -> 2 <= String.length t <= 24.
Proof.
  destruct t as [|c r]; [discriminate|]. cbn [NAME_TOKEN_RE String.length].
  intros H. repeat (apply andb_true_iff in H; destruct H as [H ?]).
  match goal with H1 : (1 <=? _) = true |- _ => apply Nat.leb_le in H1 end.
  match goal with H1 : (_ <=? 23) = true |- _ => apply Nat.leb_le in H1 end.
  lia.
Qed.

Lemma plausible_equation s :
  is_plausible_token s
  = NAME_TOKEN_RE (strip s)
    && negb (existsb (String.eqb (strip s)) blacklist)
    && negb (str_isupper (strip s) && (5 <? String.length (strip s))).
Proof.
  unfold is_plausible_token, TOKEN_RE_match. cbv zeta.
  rewrite strip_no_final_newline, andb_false_l, orb_false_r.
  destruct (NAME_TOKEN_RE (strip s)) eqn:Ere.
  - pose proof (name_token_length _ Ere) as [H2 H24].
    destruct (Nat.leb_spec 2 (String.length (strip s))); [|lia].
    destruct (Nat.leb_spec (String.length (strip s)) 24); [|lia].
    cbn [andb negb].
    destruct (existsb _ blacklist); [reflexivity|].
    now destruct (str_isupper (strip s) && (5 <? String.length (strip s))).
  - now destruct (negb _).
Qed.

Lemma plausible_name_token s :
  is_plausible_token s = true -> NAME_TOKEN_RE (strip s) = true.
Proof.
  rewrite plausible_equation. intros H.
  apply andb_true_iff in H. destruct H as [H _].
  apply andb_true_iff in H. now destruct H.
Qed.

End PlausibleToken.

(** X25: in [is_plausible_token] the length test and the way [$] treats a
    final newline under [match] change nothing: a text is plausible exactly
    when, once stripped, it has the shape of [NAME_TOKEN_RE], is not one of
    the twelve black-listed words, and is not an all-capitals text of more
    than five characters. *)
Theorem plausible_token_is_filtered_name_token (s : string) :
  Names.is_plausible_token s
  = Blocks.NAME_TOKEN_RE (strip s)
    && negb (existsb (String.eqb (strip s)) Names.blacklist)
    && negb (Names.str_isupper (strip s) && (5 <? String.length (strip s))).
Proof. apply plausible_equation. Qed.

Section Slot16Tokens.
Import Scanner Blocks Solver Names.
Local Open Scope Z_scope.

Lemma byte_z_val b : byte_z b = Z.of_nat (byte_val b).
Proof. unfold byte_z, byte_val. now rewrite N_nat_Z. Qed.

Lemma length_strip_le s : (String.length (strip s) <= String.length s)%nat.
Proof.
  unfold strip. pose proof (length_rstrip (lstrip s)).
  pose proof (length_lstrip s). lia.
Qed.

Lemma slot16_step_in_range data recsize off :
  0 <= off -> 0 < recsize -> off + recsize <= len data ->
  exists b0,
    nth_error data (Z.to_nat off) = Some b0
    /\ slot16_step data (recsize - 1) recsize off
       = Some (slot16_yield data recsize off b0).
Proof.
  intros Hoff Hrec Hfit. unfold slot16_step, slot16_yield.
  rewrite py_slice_in_range by lia.
  replace (off + recsize - off) with recsize by lia.
  assert (Hlen : List.length (firstn (Z.to_nat recsize)
                                     (skipn (Z.to_nat off) data))
                 = Z.to_nat recsize).
  { rewrite length_firstn, length_skipn. unfold len in Hfit. lia. }
  destruct (skipn (Z.to_nat off) data) as [|b0 rest] eqn:Esk.
  { rewrite firstn_nil in Hlen. simpl in Hlen. lia. }
  destruct (skipn_cons_nth data _ b0 rest Esk) as [Hnth Hrest].
  destruct (Z.to_nat recsize) as [|r] eqn:Er; [lia|].
  cbn [firstn]. exists b0. split; [assumption|].
  destruct (Z.leb_spec 1 (byte_z b0)); [|reflexivity].
  destruct (Z.leb_spec (byte_z b0) (recsize - 1)); [|reflexivity].
  cbn [andb negb].
  assert (Hraw : py_slice (b0 :: firstn r rest) 1 (1 + byte_z b0)
                 = slice data (Z.to_nat off + 1)
                         (Z.to_nat off + 1 + byte_val b0)).
  { cbn [firstn List.length] in Hlen.
    rewrite py_slice_in_range; try lia.
    2:{ unfold len. cbn [List.length]. lia. }
    replace (1 + byte_z b0 - 1) with (byte_z b0) by lia.
    change (Z.to_nat 1) with 1%nat. cbn [skipn].
    unfold slice.
    replace (Z.to_nat off + 1 + byte_val b0 - (Z.to_nat off + 1))%nat
      with (byte_val b0) by lia.
    rewrite byte_z_val in *. rewrite Nat2Z.id.
    rewrite firstn_firstn, Nat.min_l by lia.
    replace (Z.to_nat off + 1)%nat with (S (Z.to_nat off)) by lia.
    now rewrite Hrest. }
  rewrite Hraw. cbv zeta. now destruct (is_plausible_token _).
Qed.

Lemma slot16_yield_ok data start recsize off b0 :
  0 <= off -> 0 < recsize -> off + recsize <= len data ->
  (exists j, 0 <= j /\ off = start + j * recsize) ->
  Forall (fun t => slot16_token_ok data start recsize t /\ offset t = off)
         (slot16_yield data recsize off b0).
Proof.
  intros Hoff Hrec Hfit Hgrid. unfold slot16_yield.
  destruct (Z.leb_spec 1 (byte_z b0)); [|constructor].
  destruct (Z.leb_spec (byte_z b0) (recsize - 1)); [|constructor].
  cbn [andb]. cbv zeta.
  set (raw := slice data _ _).
  destruct (is_plausible_token (strip (decode_cp437 raw))) eqn:Ep;
    [|constructor].
  repeat constructor; cbn [source offset value]; try assumption.
  - apply plausible_name_token in Ep. now rewrite strip_idem in Ep.
  - pose proof (length_strip_le (decode_cp437 raw)) as Hle.
    rewrite length_decode in Hle.
    assert (List.length raw <= byte_val b0)%nat.
    { unfold raw, slice. rewrite length_firstn. lia. }
    rewrite byte_z_val in *. lia.
Qed.

Lemma slot16_loop_spec data start recsize :
  0 < recsize ->
  forall offs out,
  Forall (fun off => 0 <= off /\ off + recsize <= len data
                     /\ exists j, 0 <= j /\ off = start + j * recsize) offs ->
  StronglySorted (fun x y => x + recsize <= y) offs ->
  exists ext,
    slot16_loop data (recsize - 1) recsize offs out = Some (out ++ ext)
    /\ Forall (fun t => slot16_token_ok data start recsize t
                        /\ In (offset t) offs) ext
    /\ StronglySorted (fun a b => offset a + recsize <= offset b) ext
    /\ forall off b0, In off offs ->
         nth_error data (Z.to_nat off) = Some b0 ->
         incl (slot16_yield data recsize off b0) ext.
Proof.
  intros Hrec. induction offs as [|off rest IH]; intros out Hin Hs;
    cbn [slot16_loop].
  - exists []. rewrite app_nil_r.
    repeat split; try constructor. intros ? ? [].
  - inversion Hin as [|? ? (H0 & Hfit & Hgrid) Hin']; subst.
    inversion Hs as [|? ? Hs' Hlt]; subst.
    destruct (slot16_step_in_range data recsize off H0 Hrec Hfit)
      as (b0 & Hb0 & Hstep).
    rewrite Hstep.
    destruct (IH (out ++ slot16_yield data recsize off b0) Hin' Hs')
      as (ext & Hres & Hok & Hsorted & Hcov).
    pose proof (slot16_yield_ok data start recsize off b0 H0 Hrec Hfit Hgrid)
      as Hy.
    exists (slot16_yield data recsize off b0 ++ ext).
    split; [now rewrite Hres, app_assoc|]. split; [|split].
    + apply Forall_app. split.
      * eapply Forall_impl; [|exact Hy]. intros t [Ht Ho].
        split; [assumption | now left].
      * eapply Forall_impl; [|exact Hok]. intros t [Ht Ho].
        split; [assumption | now right].
    + assert (Hone : slot16_yield data recsize off b0 = []
                     \/ exists t, slot16_yield data recsize off b0 = [t]).
      { unfold slot16_yield.
        destruct ((1 <=? byte_z b0) && (byte_z b0 <=? recsize - 1));
          [|now left].
        cbv zeta. destruct (is_plausible_token _); [right; eauto | now left]. }
      destruct Hone as [-> | (t & Ht)]; [assumption|].
      rewrite Ht in *. cbn [app]. constructor; [assumption|].
      inversion Hy as [|? ? [_ Hto] _]; subst.
      rewrite Forall_forall in *. intros u Hu.
      destruct (Hok u Hu) as [_ Hio]. specialize (Hlt _ Hio).
      cbv beta in Hlt. lia.
    + intros o b [<-|Ho] Hb.
      * rewrite Hb0 in Hb. injection Hb as <-.
        apply incl_appl, incl_refl.
      * apply incl_appr. now apply (Hcov o b).
Qed.

Lemma slot16_offsets (data : list byte) start recsize offs :
  0 <= start -> 0 < recsize ->
  py_range start (len data - recsize + 1) recsize = Some offs ->
  Forall (fun off => 0 <= off /\ off + recsize <= len data
                     /\ exists j, 0 <= j /\ off = start + j * recsize) offs
  /\ forall j, 0 <= j -> start + j * recsize + recsize <= len data ->
       In (start + j * recsize) offs.
Proof.
  intros Hs Hrec. unfold py_range.
  destruct (Z.eqb_spec recsize 0); [lia|].
  destruct (Z.ltb_spec 0 recsize); [|lia].
  intros Heq. match type of Heq with Some ?l = _ =>
    assert (Hl : offs = l) by congruence end. clear Heq. subst offs.
  set (stop := len data - recsize + 1).
  split.
  - apply Forall_map, Forall_forall. intros k Hk. apply in_seq in Hk.
    destruct (Z.ltb_spec start stop); [|simpl in Hk; lia].
    assert (Hq : Z.of_nat k <= (stop - start - 1) / recsize) by lia.
    assert (Hm : recsize * ((stop - start - 1) / recsize) <= stop - start - 1)
      by (apply Z.mul_div_le; lia).
    split; [nia|]. split; [unfold stop in *; nia|].
    exists (Z.of_nat k). split; [lia | reflexivity].
  - intros j Hj Hfit. apply in_map_iff. exists (Z.to_nat j).
    split; [now rewrite Z2Nat.id|]. apply in_seq.
    destruct (Z.ltb_spec start stop); [|unfold stop in *; nia].
    assert (j <= (stop - start - 1) / recsize).
    { apply Z.div_le_lower_bound; [lia|]. unfold stop. nia. }
    lia.
Qed.

End Slot16Tokens.

(** X26: with a start offset that is not negative and a positive record
    size, [extract_slot16_tokens] raises nothing; its tokens come in
    increasing offset order, one per record at most; each has the source
    ["slot16"], an offset on the grid [start + j * recsize] whose record
    lies inside the buffer, and a value that is plausible, has the shape of
    [NAME_TOKEN_RE] and is shorter than the record. *)
Theorem slot16_tokens_lie_on_the_grid (data : list byte) (start recsize : Z) :
  (0 <= start)%Z -> (0 < recsize)%Z ->
  exists toks,
    Names.extract_slot16_tokens data start recsize = Some toks
    /\ StronglySorted
         (fun a b => (Names.offset a + recsize <= Names.offset b)%Z) toks
    /\ Forall (fun t =>
         Names.source t = "slot16"%string
         /\ (exists j, (0 <= j)%Z /\ Names.offset t = (start + j * recsize)%Z)
         /\ (Names.offset t + recsize <= Blocks.len data)%Z
         /\ Names.is_plausible_token (Names.value t) = true
         /\ Blocks.NAME_TOKEN_RE (Names.value t) = true
         /\ (Z.of_nat (String.length (Names.value t)) <= recsize - 1)%Z) toks.
Proof.
  intros Hs Hrec. unfold Names.extract_slot16_tokens. cbv zeta.
  destruct (Blocks.py_range start (Blocks.len data - recsize + 1) recsize)
    as [offs|] eqn:Er.
  2:{ unfold Blocks.py_range in Er.
      destruct (Z.eqb_spec recsize 0); [lia | discriminate]. }
  destruct (slot16_offsets data start recsize offs Hs Hrec Er) as [Hin _].
  destruct (slot16_loop_spec data start recsize Hrec offs [] Hin
              (py_range_sorted _ _ _ _ Hrec Er))
    as (ext & Hres & Hok & Hsorted & _).
  exists ext. cbn [app] in Hres. split; [exact Hres|]. split; [exact Hsorted|].
  eapply Forall_impl; [|exact Hok]. intros t [Ht _]. exact Ht.
Qed.

Lemma slot16_tokens_lie_on_the_grid_witness :
  exists toks,
    Names.extract_slot16_tokens
      [x05; x53; x6d; x69; x74; x68; x00; x00; x00] 0 8 = Some toks
    /\ StronglySorted
         (fun a b => (Names.offset a + 8 <= Names.offset b)%Z) toks
    /\ Forall (fun t =>
         Names.source t = "slot16"%string
         /\ (exists j, (0 <= j)%Z /\ Names.offset t = (0 + j * 8)%Z)
         /\ (Names.offset t + 8
             <= Blocks.len [x05; x53; x6d; x69; x74; x68; x00; x00; x00])%Z
         /\ Names.is_plausible_token (Names.value t) = true
         /\ Blocks.NAME_TOKEN_RE (Names.value t) = true
         /\ (Z.of_nat (String.length (Names.value t)) <= 8 - 1)%Z) toks.
Proof.
  apply (slot16_tokens_lie_on_the_grid
           [x05; x53; x6d; x69; x74; x68; x00; x00; x00] 0 8); lia.
Defined.

(** X27: with the record size 16, [extract_slot16_tokens] finds every
    record on its grid that [read_slot16] of the slot scanner decodes to a
    plausible text: the token with that text and that offset is in its
    output. *)
Theorem slot16_tokens_cover_slot_records (data : list byte) (start j : nat)
    (s : string) :
  Scanner.read_slot16 data (start + 16 * j) = Some s ->
  Names.is_plausible_token s = true ->
  exists toks,
    Names.extract_slot16_tokens data (Z.of_nat start) 16 = Some toks
    /\ In (Names.mk_token s "slot16" (Z.of_nat (start + 16 * j))) toks.
Proof.
  intros Hread Hp.
  destruct (read_slot16_inv data _ s Hread) as (Hfit & (b0 & Hb0 & Hspec) & _).
  cbv zeta in Hspec. destruct Hspec as (HL & _ & Hs & _).
  unfold Names.extract_slot16_tokens. cbv zeta.
  destruct (Blocks.py_range (Z.of_nat start) (Blocks.len data - 16 + 1) 16)
    as [offs|] eqn:Er; [|discriminate].
  assert (H0 : (0 <= Z.of_nat start)%Z) by lia.
  assert (H16 : (0 < 16)%Z) by lia.
  destruct (slot16_offsets data (Z.of_nat start) 16 offs H0 H16 Er)
    as [Hin Hall].
  destruct (slot16_loop_spec data (Z.of_nat start) 16 H16 offs [] Hin
              (py_range_sorted _ _ _ _ H16 Er))
    as (ext & Hres & _ & _ & Hcov).
  exists ext. cbn [app] in Hres. split; [exact Hres|].
  apply (Hcov (Z.of_nat (start + 16 * j)) b0).
  - replace (Z.of_nat (start + 16 * j))
      with (Z.of_nat start + Z.of_nat j * 16)%Z by lia.
    apply Hall; [lia|]. unfold Blocks.len. lia.
  - now rewrite Nat2Z.id.
  - unfold Names.slot16_yield. rewrite byte_z_val, Nat2Z.id.
    destruct (Z.leb_spec 1 (Z.of_nat (Scanner.byte_val b0))); [|lia].
    destruct (Z.leb_spec (Z.of_nat (Scanner.byte_val b0)) (16 - 1)); [|lia].
    cbn [andb]. cbv zeta. rewrite <- Hs, Hp. now left.
Qed.

Lemma slot16_tokens_cover_slot_records_witness :
  exists toks,
    Names.extract_slot16_tokens
      ([x00; x00; x00]
       ++ [x05; x53; x6d; x69; x74; x68; x20; x20; x20; x20; x20; x20; x20;
           x20; x20; x20]) (Z.of_nat 3) 16 = Some toks
    /\ In (Names.mk_token "Smith" "slot16" (Z.of_nat (3 + 16 * 0))) toks.
Proof.
  apply (slot16_tokens_cover_slot_records
           ([x00; x00; x00]
            ++ [x05; x53; x6d; x69; x74; x68; x20; x20; x20; x20; x20; x20;
                x20; x20; x20; x20]) 3 0 "Smith").
  - vm_compute. reflexivity.
  - vm_compute. reflexivity.
Defined.

Section BlobTokens.
Import Segmenter Blocks Notions Names.

Lemma str_length_app (a b : string) :
  String.length (a ++ b)%string = String.length a + String.length b.
Proof. induction a as [|c a IH]; cbn; [reflexivity | now rewrite IH]. Qed.

Lemma sorted_app {A} (R : A -> A -> Prop) l1 l2 :
  StronglySorted R l1 -> StronglySorted R l2 ->
  (forall x y, In x l1 -> In y l2 -> R x y) ->
  StronglySorted R (l1 ++ l2).
Proof.
  induction 1 as [|x l1 Hs IH Hx]; intros H2 Hc; cbn; [assumption|].
  constructor.
  - apply IH; [assumption|]. intros a b Ha Hb. apply Hc; [now right | assumption].
  - apply Forall_app. split; [assumption|].
    apply Forall_forall. intros y Hy. apply Hc; [now left | assumption].
Qed.

Lemma name_char_not_space c : name_token_char c = true -> isspace c = false.
Proof.
  destruct c as [[] [] [] [] [] [] [] []]; vm_compute; congruence.
Qed.

Lemma rstrip_no_space s : str_any isspace s = false -> rstrip s = s.
Proof.
  induction s as [|c s IH]; cbn [str_any rstrip]; [reflexivity|].
  intros H. apply orb_false_iff in H. destruct H as [Hc Hs].
  rewrite (IH Hs). destruct s; [now rewrite Hc | reflexivity].
Qed.

Lemma strip_name_chars s : str_all name_token_char s = true -> strip s = s.
Proof.
  intros H.
  assert (Hs : str_any isspace s = false).
  { induction s as [|c s IH]; [reflexivity|]. cbn [str_all str_any] in *.
    apply andb_true_iff in H. destruct H as [Hc Hr].
    now rewrite (name_char_not_space c Hc), (IH Hr). }
  unfold strip.
  assert (Hl : lstrip s = s).
  { destruct s as [|c s']; [reflexivity|]. cbn [str_any] in Hs.
    apply orb_false_iff in Hs. cbn [lstrip]. now rewrite (proj1 Hs). }
  rewrite Hl. now apply rstrip_no_space.
Qed.

Lemma str_all_join p l :
  str_all p (join l) = true -> Forall (fun t => str_all p t = true) l.
Proof.
  induction l as [|t l IH]; cbn [join]; intros H; [constructor|].
  rewrite str_all_app in H. apply andb_true_iff in H. destruct H as [Ht Hl].
  constructor; [assumption | now apply IH].
Qed.

Lemma flush_run_spec minrun pre cur text :
  str_all name_token_char cur = true ->
  Forall (fun m => run_ok minrun (pre ++ cur ++ text)%string m
                   /\ fst m = String.length pre /\ snd m = cur)
         (flush_run minrun (String.length pre) cur).
Proof.
  intros Hc. unfold flush_run.
  destruct (truthy cur) eqn:Et; [|constructor].
  destruct (Nat.leb_spec minrun (String.length cur)); [|constructor].
  cbn [andb]. constructor; [|constructor]. cbn [fst snd].
  split; [|split; reflexivity].
  exists pre, text. cbn [fst snd].
  repeat split; try assumption. now apply truthy_nonempty.
Qed.

Lemma name_runs_spec minrun : forall text pre cur pos start,
  start = String.length pre ->
  pos = String.length pre + String.length cur ->
  str_all name_token_char cur = true ->
  Forall (fun m => run_ok minrun (pre ++ cur ++ text)%string m
                   /\ String.length pre <= fst m)
         (name_runs minrun text pos start cur)
  /\ StronglySorted
       (fun m1 m2 => fst m1 + String.length (snd m1) < fst m2)
       (name_runs minrun text pos start cur).
Proof.
  induction text as [|c text IH]; intros pre cur pos start Hstart Hpos Hc;
    cbn [name_runs]; subst start.
  - split.
    + eapply Forall_impl; [|apply (flush_run_spec minrun pre cur "" Hc)].
      intros m (Hm & Hf & _). split; [assumption | lia].
    + unfold flush_run. destruct (_ && _); repeat constructor.
  - destruct (name_token_char c) eqn:En.
    + assert (Hc' : str_all name_token_char (add_char cur c) = true).
      { unfold add_char. rewrite str_all_app, Hc. cbn. now rewrite En. }
      assert (Ht : (pre ++ add_char cur c ++ text)%string
                   = (pre ++ cur ++ String c text)%string).
      { unfold add_char. now rewrite app_str_assoc. }
      rewrite <- Ht. apply IH; [reflexivity | | assumption].
      unfold add_char. rewrite str_length_app. cbn [String.length]. lia.
    + assert (Ht : ((pre ++ cur ++ String c "") ++ "" ++ text)%string
                   = (pre ++ cur ++ String c text)%string).
      { cbn [String.append]. now rewrite !app_str_assoc. }
      assert (Hlen : String.length (pre ++ cur ++ String c "")%string = S pos).
      { rewrite !str_length_app. cbn [String.length]. lia. }
      destruct (IH (pre ++ cur ++ String c "")%string ""%string (S pos) (S pos))
        as [Hok Hsorted];
        [now rewrite Hlen | rewrite Hlen; cbn [String.length]; lia
        | reflexivity |].
      rewrite Ht, Hlen in Hok.
      pose proof (flush_run_spec minrun pre cur (String c text) Hc) as Hf.
      split.
      * apply Forall_app. split.
        -- eapply Forall_impl; [|exact Hf].
           intros m (Hm & Hs & _). split; [assumption | lia].
        -- eapply Forall_impl; [|exact Hok].
           intros m (Hm & Hs). split; [assumption | lia].
      * apply sorted_app; [|assumption|].
        -- unfold flush_run. destruct (_ && _); repeat constructor.
        -- intros x y Hx Hy. rewrite Forall_forall in Hf, Hok.
           destruct (Hf x Hx) as (_ & -> & ->).
           destruct (Hok y Hy) as (_ & Hge). lia.
Qed.

Lemma blob_tokens_of_spec minrun text m :
  run_ok minrun text m ->
  Forall (fun t => blob_token_ok minrun text t
                   /\ offset t = Z.of_nat (fst m))
         (blob_tokens_of m).
Proof.
  intros Hm. unfold blob_tokens_of.
  assert (Hparts : Forall (fun t => str_all name_token_char t = true)
                          (split_concatenated_names (snd m))).
  { apply str_all_join. rewrite split_names_parts, split_parts_text.
    destruct Hm as (p & q & _ & _ & _ & _ & Hall). exact Hall. }
  assert (Haux : forall l,
            Forall (fun t => str_all name_token_char t = true) l ->
            (forall t, In t l ->
                       In t (split_concatenated_names (snd m))) ->
            Forall (fun t => blob_token_ok minrun text t
                             /\ offset t = Z.of_nat (fst m))
              (flat_map
                 (fun t =>
                    let t' := strip t in
                    if is_plausible_token t'
                    then [mk_token t' "blob" (Z.of_nat (fst m))]
                    else []) l));
    [|apply Haux; [exact Hparts | auto]].
  clear Hparts.
  induction l as [|t l IH]; intros Hparts Hin; cbn [flat_map];
    [constructor|].
  inversion Hparts as [|? ? Ht Hrest]; subst. cbv zeta.
  apply Forall_app. split.
  - rewrite (strip_name_chars t Ht).
    destruct (is_plausible_token t) eqn:Ep; [|constructor].
    repeat constructor; cbn [source value offset]; try assumption.
    + apply plausible_name_token in Ep.
      now rewrite (strip_name_chars t Ht) in Ep.
    + exists m. split; [assumption|]. split; [reflexivity|].
      apply Hin. now left.
  - apply IH; [assumption|]. intros u Hu. apply Hin. now right.
Qed.

End BlobTokens.

(** X28: every token of [extract_blob_tokens] has the source ["blob"], a
    plausible value with the shape of [NAME_TOKEN_RE], and comes from a run
    of the text: a stretch of letters, apostrophes and hyphens, at least
    [minrun] characters long, that begins at the token's offset and of
    which the value is one of the parts [split_concatenated_names] cuts.
    The tokens come in ascending offset order. *)
Theorem blob_tokens_come_from_runs (minrun : nat) (text : string) :
  Forall (Names.blob_token_ok minrun text)
         (Names.extract_blob_tokens minrun text)
  /\ StronglySorted (fun a b => (Names.offset a <= Names.offset b)%Z)
                    (Names.extract_blob_tokens minrun text).
Proof.
  unfold Names.extract_blob_tokens, Names.NAME_RUN_RE_finditer.
  pose proof (name_runs_spec minrun text ""%string ""%string 0 0
                eq_refl eq_refl eq_refl) as [Hok Hsorted].
  cbn [String.append] in Hok.
  revert Hok Hsorted.
  generalize (Names.name_runs minrun text 0 0 "") as runs.
  induction runs as [|m runs IH]; intros Hok Hsorted; cbn [flat_map].
  - split; constructor.
  - inversion Hok as [|? ? [Hm _] Hok']; subst.
    inversion Hsorted as [|? ? Hs' Hlt]; subst.
    destruct (IH Hok' Hs') as [IH1 IH2].
    pose proof (blob_tokens_of_spec minrun text m Hm) as Hb.
    split.
    + apply Forall_app. split; [|assumption].
      eapply Forall_impl; [|exact Hb]. now intros t [Ht _].
    + apply sorted_app; [|assumption|].
      * clear - Hb. induction Hb as [|t l [_ Ht] Hl IHl]; constructor;
          [assumption|].
        eapply Forall_impl; [|exact Hl]. intros u [_ Hu]. cbv beta. lia.
      * intros x y Hx Hy. rewrite Forall_forall in Hb.
        destruct (Hb x Hx) as [_ Hxo].
        apply in_flat_map in Hy. destruct Hy as (m' & Hm' & Hy).
        rewrite Forall_forall in Hok', Hlt.
        destruct (Hok' m' Hm') as [Hrun' _].
        pose proof (blob_tokens_of_spec minrun text m' Hrun') as Hb'.
        rewrite Forall_forall in Hb'. destruct (Hb' y Hy) as [_ Hyo].
        specialize (Hlt m' Hm'). cbv beta in Hlt. lia.
Qed.

Section Pairing.
Import Names.

Lemma infer_loop_spec firstnames : forall n tokens,
  List.length tokens <= n ->
  forall pairs singles,
  exists pe se,
    infer_loop firstnames tokens pairs singles = (pairs ++ pe, singles ++ se)
    /\ List.length tokens = 2 * List.length pe + List.length se
    /\ Forall (paired firstnames tokens) pe
    /\ Forall (fun t => In t tokens) se.
Proof.
  induction n as [|n IH]; intros tokens Hlen pairs singles.
  - destruct tokens; [|simpl in Hlen; lia].
    exists [], []. rewrite !app_nil_r. repeat split; constructor.
  - destruct tokens as [|t rest].
    { exists [], []. rewrite !app_nil_r. repeat split; constructor. }
    cbn [List.length] in Hlen.
    assert (Hsingle :
      exists pe se,
        infer_loop firstnames rest pairs (singles ++ [t])
        = (pairs ++ pe, singles ++ se)
        /\ List.length (t :: rest) = 2 * List.length pe + List.length se
        /\ Forall (paired firstnames (t :: rest)) pe
        /\ Forall (fun u => In u (t :: rest)) se).
    { destruct (IH rest ltac:(lia) pairs (singles ++ [t]))
        as (pe & se & Hres & Hcount & Hp & Hs).
      exists pe, (t :: se). split; [|split; [|split]].
      - rewrite Hres, <- app_assoc. reflexivity.
      - cbn [List.length]. lia.
      - eapply Forall_impl; [|exact Hp].
        intros p (l1 & a & b & l2 & -> & H). exists (t :: l1), a, b, l2.
        split; [reflexivity | exact H].
      - constructor; [now left|].
        eapply Forall_impl; [|exact Hs]. intros u Hu. now right. }
    cbn [infer_loop]. destruct rest as [|nxt rest']; [exact Hsingle|].
    destruct (mem (capitalize_first (value t)) firstnames) eqn:Em;
      [|exact Hsingle].
    destruct (is_plausible_token (value nxt)) eqn:Ep; [|exact Hsingle].
    cbn [andb]. cbn [List.length] in Hlen.
    destruct (IH rest' ltac:(lia)
                (pairs ++ [(capitalize_first (value t), value nxt,
                            source t, offset t)]) singles)
      as (pe & se & Hres & Hcount & Hp & Hs).
    exists (pair_of t nxt :: pe), se. split; [|split; [|split]].
    + rewrite Hres, <- app_assoc. reflexivity.
    + cbn [List.length]. lia.
    + constructor.
      * exists [], t, nxt, rest'. repeat split; assumption.
      * eapply Forall_impl; [|exact Hp].
        intros p (l1 & a & b & l2 & -> & H). exists (t :: nxt :: l1), a, b, l2.
        split; [reflexivity | exact H].
    + eapply Forall_impl; [|exact Hs]. intros u Hu. right. now right.
Qed.

Lemma infer_loop_no_first_name firstnames : forall tokens pairs singles,
  Forall (fun t => mem (capitalize_first (value t)) firstnames = false)
         tokens ->
  infer_loop firstnames tokens pairs singles = (pairs, singles ++ tokens).
Proof.
  induction tokens as [|t rest IH]; intros pairs singles Hno;
    cbn [infer_loop]; [now rewrite app_nil_r|].
  inversion Hno as [|? ? Ht Hrest]; subst. rewrite Ht. cbn [andb].
  assert (Hgo : infer_loop firstnames rest pairs (singles ++ [t])
                = (pairs, singles ++ t :: rest)).
  { rewrite (IH _ _ Hrest), <- app_assoc. reflexivity. }
  destruct rest; exact Hgo.
Qed.

End Pairing.

(** X29: [infer_pairs], on tokens whose values start with an ASCII
    character (as every plausible token does), accounts for every token:
    the token count is twice the number of pairs plus the number of
    singles; every pair is made of two adjacent tokens, of which the first,
    with its first letter capitalised, is a known first name and gives the
    pair its source and offset, and the second is plausible; every single
    is one of the tokens; and when no token is a known first name, nothing
    is paired and the singles are the tokens. *)
Theorem infer_pairs_accounts_for_tokens (tokens : list Names.token)
    (firstnames : list string) :
  Forall (fun t => Names.starts_ascii (Names.value t) = true) tokens ->
  let pairs := fst (Names.infer_pairs tokens firstnames) in
  let singles := snd (Names.infer_pairs tokens firstnames) in
  List.length tokens = 2 * List.length pairs + List.length singles
  /\ Forall (Names.paired firstnames tokens) pairs
  /\ Forall (fun t => In t tokens) singles
  /\ (Forall (fun t => Names.mem (Names.capitalize_first (Names.value t))
                                 firstnames = false) tokens ->
      pairs = [] /\ singles = tokens).
Proof.
  intros _. cbv zeta. unfold Names.infer_pairs.
  destruct (infer_loop_spec firstnames (List.length tokens) tokens
              (Nat.le_refl _) [] [])
    as (pe & se & Hres & Hcount & Hp & Hs).
  rewrite Hres. cbn [app fst snd].
  split; [exact Hcount|]. split; [exact Hp|]. split; [exact Hs|].
  intros Hno. rewrite (infer_loop_no_first_name _ _ _ _ Hno) in Hres.
  cbn [app] in Hres. split; congruence.
Qed.

Lemma infer_pairs_accounts_for_tokens_witness :
  let tokens := [Names.mk_token "john" "blob" 0;
                 Names.mk_token "Smith" "blob" 0;
                 Names.mk_token "Rangers" "slot16" 16]%string in
  let pairs := fst (Names.infer_pairs tokens ["John"]%string) in
  let singles := snd (Names.infer_pairs tokens ["John"]%string) in
  List.length tokens = 2 * List.length pairs + List.length singles
  /\ Forall (Names.paired ["John"]%string tokens) pairs
  /\ Forall (fun t => In t tokens) singles
  /\ (Forall (fun t => Names.mem (Names.capitalize_first (Names.value t))
                                 ["John"]%string = false) tokens ->
      pairs = [] /\ singles = tokens).
Proof.
  apply (infer_pairs_accounts_for_tokens
           [Names.mk_token "john" "blob" 0;
            Names.mk_token "Smith" "blob" 0;
            Names.mk_token "Rangers" "slot16" 16]%string ["John"]%string).
  repeat constructor.
Defined.

Section Dedupe.
Import Names.
Context {A K : Type} (key : A -> K) (eqb : K -> K -> bool).
Hypothesis eqb_spec : forall a b, eqb a b = true <-> a = b.

Lemma seen_In (k : K) (seen : list K) :
  existsb (eqb k) seen = true <-> In k seen.
Proof.
  rewrite existsb_exists. split.
  - intros (x & Hx & He). apply eqb_spec in He. now subst.
  - intros H. exists k. split; [assumption | now apply eqb_spec].
Qed.

Lemma NoDup_snoc (l : list K) (k : K) :
  NoDup l -> ~ In k l -> NoDup (l ++ [k]).
Proof.
  induction 1 as [|x l Hx Hnd IH]; intros Hk; cbn.
  - constructor; [intros [] | constructor].
  - constructor.
    + rewrite in_app_iff. cbn. intros [Hi|[He|[]]]; [tauto|].
      apply Hk. now left.
    + apply IH. intros Hi. apply Hk. now right.
Qed.

Lemma unique_loop_spec : forall l seen out,
  (forall k, In k seen <-> In k (map key out)) ->
  NoDup (map key out) ->
  exists ext,
    unique_loop key eqb l seen out = out ++ ext
    /\ NoDup (map key (out ++ ext))
    /\ incl ext l
    /\ forall x, In x l -> In (key x) (map key (out ++ ext)).
Proof.
  induction l as [|x rest IH]; intros seen out Hseen Hnd; cbn [unique_loop].
  - exists []. rewrite app_nil_r.
    repeat split; [assumption | apply incl_refl | intros x []].
  - destruct (existsb (eqb (key x)) seen) eqn:Es.
    + destruct (IH seen out Hseen Hnd) as (ext & Hres & Hn & Hincl & Hcov).
      exists ext. repeat split; try assumption.
      * now apply incl_tl.
      * intros y [<-|Hy]; [|now apply Hcov].
        apply seen_In, Hseen in Es. rewrite map_app, in_app_iff. now left.
    + destruct (IH (key x :: seen) (out ++ [x]))
        as (ext & Hres & Hn & Hincl & Hcov).
      * intros k. rewrite map_app, in_app_iff. cbn. rewrite Hseen. tauto.
      * rewrite map_app. cbn [map]. apply NoDup_snoc; [assumption|].
        intros Hi. apply Hseen, seen_In in Hi. congruence.
      * exists (x :: ext). rewrite <- app_assoc in Hres, Hn, Hcov.
        cbn [app] in Hres, Hn, Hcov. repeat split; try assumption.
        -- intros y [<-|Hy]; [now left | right; now apply Hincl].
        -- intros y [<-|Hy]; [|now apply Hcov].
           rewrite map_app, in_app_iff. right. now left.
Qed.

Lemma unique_loop_distinct : forall l seen out,
  NoDup (map key l) ->
  (forall x, In x l -> ~ In (key x) seen) ->
  unique_loop key eqb l seen out = out ++ l.
Proof.
  induction l as [|x rest IH]; intros seen out Hnd Hnew; cbn [unique_loop];
    [now rewrite app_nil_r|].
  cbn [map] in Hnd. inversion Hnd as [|? ? Hx Hrest]; subst.
  destruct (existsb (eqb (key x)) seen) eqn:Es.
  - apply seen_In in Es. exfalso. apply (Hnew x); [now left | assumption].
  - rewrite IH, <- app_assoc; [reflexivity | assumption |].
    intros y Hy [He|Hi].
    + apply Hx. rewrite He. now apply in_map.
    + apply (Hnew y); [now right | assumption].
Qed.

End Dedupe.

Lemma pair_key_eqb_spec (a b : string * string) :
  Names.pair_key_eqb a b = true <-> a = b.
Proof.
  unfold Names.pair_key_eqb. destruct a as [a1 a2], b as [b1 b2]. cbn [fst snd].
  rewrite andb_true_iff, !String.eqb_eq. split.
  - intros [-> ->]. reflexivity.
  - intros H. injection H as -> ->. now split.
Qed.

(** X30: the two de-duplication loops of [main] keep one element for each
    key ((first, last) for the pairs, the value for the singles): the
    result has no two elements with the same key, holds elements of the
    input only, has every key of the input, and is the input itself when
    the keys of the input are already distinct. *)
Theorem unique_loops_keep_one_per_key (pairs : list Names.pair)
    (singles : list Names.token) :
  (NoDup (map Names.pair_key (Names.pairs_unique pairs))
   /\ incl (Names.pairs_unique pairs) pairs
   /\ (forall p, In p pairs ->
         In (Names.pair_key p) (map Names.pair_key (Names.pairs_unique pairs)))
   /\ (NoDup (map Names.pair_key pairs) -> Names.pairs_unique pairs = pairs))
  /\ (NoDup (map Names.value (Names.singles_unique singles))
      /\ incl (Names.singles_unique singles) singles
      /\ (forall t, In t singles ->
            In (Names.value t)
               (map Names.value (Names.singles_unique singles)))
      /\ (NoDup (map Names.value singles) ->
          Names.singles_unique singles = singles)).
Proof.
  unfold Names.pairs_unique, Names.singles_unique. split.
  - destruct (unique_loop_spec Names.pair_key Names.pair_key_eqb
                pair_key_eqb_spec pairs [] [])
      as (ext & Hres & Hn & Hincl & Hcov);
      [intros k; reflexivity | constructor |].
    rewrite Hres. cbn [app] in *. repeat split; try assumption.
    intros Hnd.
    rewrite <- Hres.
    rewrite (unique_loop_distinct Names.pair_key Names.pair_key_eqb
               pair_key_eqb_spec pairs [] [] Hnd); [reflexivity|].
    intros x _ [].
  - destruct (unique_loop_spec Names.value String.eqb String.eqb_eq
                singles [] [])
      as (ext & Hres & Hn & Hincl & Hcov);
      [intros k; reflexivity | constructor |].
    rewrite Hres. cbn [app] in *. repeat split; try assumption.
    intros Hnd.
    rewrite <- Hres.
    rewrite (unique_loop_distinct Names.value String.eqb String.eqb_eq
               singles [] [] Hnd); [reflexivity|].
    intros x _ [].
Qed.
